(** * MapUtils: conversions between planar and geographic shapes, and the
      background tiler

    A shallow embedding of [src/.internal/charts/map/MapUtils.ts].

    - JavaScript arrays are lists.  Reading [a[i]] past the end gives
      [undefined]; where the source reads or tests a slot that may be missing
      (the two coordinates of a point, the surface and hole of a polygon) the
      elements are [option]s and [None] is [undefined].
    - An index loop [for (let i = 0, len = a.length; i < len; i++)] is
      [for_each]; a loop on a number [for (x = a; c(x); x = f(x))] is
      [for_loop], with fuel, since nothing bounds its iterations.
    - Arrays that are filled after a reference to them was stored elsewhere
      live in a [store] and are known by their address.
    - Numbers are kept behind the interface [Number], with two
      implementations: IEEE 754 binary64, which is what a JavaScript engine
      computes, and the same operations without rounding, on rationals with
      signed zero, infinities and NaN.  The second is an idealisation, not
      the program: what is proved of the program is proved for every
      [Number] or on binary64, and a result without rounding is only ever
      stated beside it. *)

From Stdlib Require Import ZArith QArith Qcanon Qround Floats Uint63 Lia Lqa.
From stdpp Require Import base list option.

(** ** Arrays *)

(** [a[i]] on an array whose elements may be [undefined]. *)
Definition index {A} (a : list (option A)) (i : nat) : option A :=
  mjoin (a !! i).

(** [a[i] = v] on a dense array: overwrites inside the array and grows it by
    one at [i = a.length].  (Past that JavaScript leaves holes; the loops
    below write at [i = a.length] only, see [for_each_from_set_length].) *)
Definition array_set {A} (a : list A) (i : nat) (v : A) : list A :=
  if decide (i < length a) then <[i:=v]> a else a ++ [v].

(** [a[i].push(x)] on an array of arrays with optional slots. *)
Definition array_push_at {A} (a : list (list (option A))) (i : nat) (x : A)
  : list (list (option A)) :=
  alter (λ inner, inner ++ [Some x]) i a.

(** ** Loops *)

(** [for (let i = i0, len = a.length; i < len; i++) body(i, a[i])], started
    at the front of what is left of [a]. *)
Fixpoint for_each_from {A St} (i : nat) (a : list A)
  (body : nat → A → St → St) (s : St) : St :=
  match a with
  | [] => s
  | x :: a' => for_each_from (S i) a' body (body i x s)
  end.

Definition for_each {A St} (a : list A) (body : nat → A → St → St) (s : St)
  : St :=
  for_each_from 0 a body s.

(** Modelled from the spec: [$array.each] of [core/utils/Array], which is not
    among the sources.  It calls [fn] on every element of the array, in index
    order. *)
Definition each {A St} (a : list A) (fn : A → St → St) (s : St) : St :=
  fold_left (λ s x, fn x s) a s.

(** [for (v = v0; cond(v); v = incr(v)) body(v)] over a state [s].  The
    increment may read the state, and the body may fail (an inner loop that
    ran out of fuel).  [None] is "out of fuel". *)
Fixpoint for_loop {V St} (fuel : nat) (cond : V → St → bool)
  (body : V → St → option St) (incr : V → St → V) (v : V) (s : St)
  : option St :=
  match fuel with
  | O => None
  | S fuel' =>
      if cond v s
      then match body v s with
           | Some s' => for_loop fuel' cond body incr (incr v s') s'
           | None => None
           end
      else Some s
  end.

(** ** The store *)

(** Arrays that are written through a reference: [store A] holds arrays of
    [A], an address is a position in it. *)
Abbreviation store A := (list (list A)) (only parsing).
Abbreviation ref := nat (only parsing).

(** [let r = []] *)
Definition new_array {A} (h : store A) : ref * store A :=
  (length h, h ++ [[]]).

(** [r.push(x)] *)
Definition push {A} (r : ref) (x : A) (h : store A) : store A :=
  alter (λ a, a ++ [x]) r h.

(** The array at address [r]. *)
Definition deref {A} (h : store A) (r : ref) : list A :=
  default [] (h !! r).

(** ** Coordinate mapper *)

(** [number[]]: a point is an array of numbers, read at 0 and 1.  A polygon
    has its surface at slot 0 and its hole at slot 1. *)
Abbreviation Point num := (list (option num)) (only parsing).
Abbreviation Ring num := (list (Point num)) (only parsing).
Abbreviation Polygon num := (list (option (Ring num))) (only parsing).
Abbreviation MultiPolygon num := (list (Polygon num)) (only parsing).
Abbreviation MultiLine num := (list (list (Point num))) (only parsing).

Record IGeoPoint (num : Type) := mkGeo {
  longitude : option num;
  latitude : option num;
}.
Arguments mkGeo {num} _ _.
Arguments longitude {num} _.
Arguments latitude {num} _.

Abbreviation GeoRing num := (list (IGeoPoint num)) (only parsing).
Abbreviation GeoPolygon num := (list (option (GeoRing num))) (only parsing).
Abbreviation MultiGeoPolygon num := (list (GeoPolygon num)) (only parsing).
Abbreviation MultiGeoLine num := (list (list (IGeoPoint num))) (only parsing).

Section Mapper.
Context {num : Type}.

(** The array literal [[x, y]]. *)
Definition pt (x y : num) : Point num := [Some x; Some y].

Definition pointToGeo (point : Point num) : IGeoPoint num :=
  {| longitude := index point 0; latitude := index point 1 |}.

Definition multiPointToGeo (points : Ring num) : GeoRing num :=
  for_each points (λ _ p geoPoints, geoPoints ++ [pointToGeo p]) [].

Definition multiGeoToPoint (geoPoints : GeoRing num) : Ring num :=
  for_each geoPoints
    (λ _ g points, points ++ [[longitude g; latitude g]]) [].

Definition multiLineToGeo (multiLine : MultiLine num) : MultiGeoLine num :=
  for_each multiLine
    (λ _ line multiGeoLine, multiGeoLine ++ [multiPointToGeo line]) [].

Definition multiPolygonToGeo (multiPolygon : MultiPolygon num)
  : MultiGeoPolygon num :=
  for_each multiPolygon
    (λ i polygon multiGeoArea,
       let surface := index polygon 0 in
       let hole := index polygon 1 in
       let multiGeoArea := array_set multiGeoArea i [] in
       let multiGeoArea :=
         match surface with
         | Some surface => array_push_at multiGeoArea i (multiPointToGeo surface)
         | None => multiGeoArea
         end in
       match hole with
       | Some hole => array_push_at multiGeoArea i (multiPointToGeo hole)
       | None => multiGeoArea
       end)
    [].

Definition multiGeoPolygonToMultipolygon (multiGeoPolygon : MultiGeoPolygon num)
  : MultiPolygon num :=
  for_each multiGeoPolygon
    (λ i polygon multiPolygon,
       let surface := index polygon 0 in
       let hole := index polygon 1 in
       let multiPolygon := array_set multiPolygon i [] in
       let multiPolygon :=
         match surface with
         | Some surface => array_push_at multiPolygon i (multiGeoToPoint surface)
         | None => multiPolygon
         end in
       match hole with
       | Some hole => array_push_at multiPolygon i (multiGeoToPoint hole)
       | None => multiPolygon
       end)
    [].

(** [multiGeoLineToMultiLine] pushes each new segment onto [multiLine] while
    it is still empty and fills it afterwards: the segments live in the
    store, [multiLine] holds their addresses, and the value returned is what
    the addresses hold at the end. *)
Definition multiGeoLineToMultiLine (multiGeoLine : MultiGeoLine num)
  : MultiLine num :=
  let '(h, multiLine) :=
    each multiGeoLine
      (λ segment '(h, multiLine),
         let '(multiLineSegment, h) := new_array h in
         let multiLine := multiLine ++ [multiLineSegment] in
         let h :=
           each segment
             (λ geoPoint h,
                push multiLineSegment [longitude geoPoint; latitude geoPoint] h)
             h in
         (h, multiLine))
      ([], []) in
  deref h <$> multiLine.

End Mapper.

(** ** Numbers *)

(** What [getBackground] asks of JavaScript's numbers: decimal literals, [+],
    [-], [/], [Math.ceil], [Math.min], and the comparisons [<], [<=] and
    [==] ([a > b] is [b < a], [a >= b] is [b <= a]). *)
Record Number := {
  num : Type;
  lit : Q → num;
  add : num → num → num;
  sub : num → num → num;
  div : num → num → num;
  ceil : num → num;
  min : num → num → num;
  ltb : num → num → bool;
  leb : num → num → bool;
  eqb : num → num → bool;
}.

(** *** IEEE 754 binary64 *)

Module Binary64.

(** An integer below 2^53 in absolute value, as the float it is. *)
Definition of_Z (z : Z) : float :=
  if (z <? 0)%Z
  then PrimFloat.opp (PrimFloat.of_uint63 (Uint63.of_Z (- z)))
  else PrimFloat.of_uint63 (Uint63.of_Z z).

(** A decimal literal: the quotient of two integers that are floats, rounded
    once by the division, is the float nearest to the literal. *)
Definition lit (q : Q) : float :=
  PrimFloat.div (of_Z (Qnum q)) (of_Z (Zpos (Qden q))).

(** [Math.ceil].  A finite float is [(-1)^s * m * 2^e]; with [e >= 0] it is an
    integer.  Below, the quotient of [m] by [2^-e] is its integer part, and a
    negative number above -1 rounds to [-0]. *)
Definition ceil (x : float) : float :=
  match Prim2SF x with
  | S754_finite s m e =>
      if (0 <=? e)%Z then x
      else
        let d := (2 ^ (- e))%Z in
        let q := (Zpos m / d)%Z in
        if s then PrimFloat.opp (of_Z q)
        else of_Z (if (Zpos m mod d =? 0)%Z then q else q + 1)
  | _ => x
  end.

(** [Math.min]: NaN if either is NaN, and [-0] is below [+0]. *)
Definition min (a b : float) : float :=
  if PrimFloat.is_nan a || PrimFloat.is_nan b then PrimFloat.nan
  else if PrimFloat.ltb a b then a
  else if PrimFloat.ltb b a then b
  else if PrimFloat.get_sign a then a else b.

Definition number : Number :=
  Build_Number float lit PrimFloat.add PrimFloat.sub PrimFloat.div ceil min
    PrimFloat.ltb PrimFloat.leb PrimFloat.eqb.

End Binary64.

(** *** The same operations without rounding

    An idealisation to compare the program with, not the program: a
    JavaScript engine rounds every operation, and [getBackground] can
    return other slices and points on binary64 than here. *)

Module Exact.

(** A rational ([Fin 0] is [+0]), [-0], the infinities and NaN. *)
Inductive xnum := Fin (q : Qc) | NegZero | PInf | NInf | NaN.

Definition Qc_ltb (a b : Qc) : bool := negb (Qle_bool b a).
Definition Qc_leb (a b : Qc) : bool := Qle_bool a b.
Definition Qc_eqb (a b : Qc) : bool := Qeq_bool a b.

Definition zero (negative : bool) : xnum := if negative then NegZero else Fin 0.
Definition inf (negative : bool) : xnum := if negative then NInf else PInf.

Definition sign (x : xnum) : bool :=
  match x with
  | Fin q => Qc_ltb q 0
  | NegZero | NInf => true
  | PInf | NaN => false
  end.

Definition is_zero (x : xnum) : bool :=
  match x with
  | Fin q => Qc_eqb q 0
  | NegZero => true
  | _ => false
  end.

Definition is_inf (x : xnum) : bool :=
  match x with PInf | NInf => true | _ => false end.

(** The rational a finite number stands for. *)
Definition val (x : xnum) : Qc :=
  match x with Fin q => q | _ => 0 end.

Definition neg (x : xnum) : xnum :=
  match x with
  | Fin q => if Qc_eqb q 0 then NegZero else Fin (- q)
  | NegZero => Fin 0
  | PInf => NInf
  | NInf => PInf
  | NaN => NaN
  end.

Definition add (a b : xnum) : xnum :=
  match a, b with
  | NaN, _ | _, NaN => NaN
  | PInf, NInf | NInf, PInf => NaN
  | PInf, _ | _, PInf => PInf
  | NInf, _ | _, NInf => NInf
  | NegZero, NegZero => NegZero
  | NegZero, Fin q | Fin q, NegZero => Fin q
  | Fin p, Fin q => Fin (p + q)
  end.

Definition sub (a b : xnum) : xnum := add a (neg b).

Definition div (a b : xnum) : xnum :=
  match a, b with
  | NaN, _ | _, NaN => NaN
  | _, _ =>
      let s := xorb (sign a) (sign b) in
      if is_inf a then (if is_inf b then NaN else inf s)
      else if is_inf b then zero s
      else if is_zero b then (if is_zero a then NaN else inf s)
      else if is_zero a then zero s
      else Fin (val a / val b)
  end.

Definition ceil (x : xnum) : xnum :=
  match x with
  | Fin q =>
      let c := Qceiling q in
      if (c =? 0)%Z && Qc_ltb q 0 then NegZero else Fin (Q2Qc (inject_Z c))
  | _ => x
  end.

Definition ltb (a b : xnum) : bool :=
  match a, b with
  | NaN, _ | _, NaN => false
  | _, NInf | PInf, _ => false
  | NInf, _ | _, PInf => true
  | _, _ => Qc_ltb (val a) (val b)
  end.

Definition leb (a b : xnum) : bool :=
  match a, b with
  | NaN, _ | _, NaN => false
  | NInf, _ | _, PInf => true
  | _, NInf | PInf, _ => false
  | _, _ => Qc_leb (val a) (val b)
  end.

Definition eqb (a b : xnum) : bool :=
  match a, b with
  | NaN, _ | _, NaN => false
  | PInf, PInf | NInf, NInf => true
  | PInf, _ | _, PInf | NInf, _ | _, NInf => false
  | _, _ => Qc_eqb (val a) (val b)
  end.

Definition min (a b : xnum) : xnum :=
  match a, b with
  | NaN, _ | _, NaN => NaN
  | _, _ =>
      if ltb a b then a
      else if ltb b a then b
      else if sign a then a else b
  end.

Definition lit (q : Q) : xnum := Fin (Q2Qc q).

Definition number : Number :=
  Build_Number xnum lit add sub div ceil min ltb leb eqb.

End Exact.

(** ** Background tiler *)

Declare Scope num_scope.
Delimit Scope num_scope with num.

Section Background.
Variable N : Number.

Notation "a + b" := (add N a b) : num_scope.
Notation "a - b" := (sub N a b) : num_scope.
Notation "a / b" := (div N a b) : num_scope.
Notation "a < b" := (ltb N a b) : num_scope.
Notation "a > b" := (ltb N b a) : num_scope.
Notation "a <= b" := (leb N a b) : num_scope.
Notation "a >= b" := (leb N b a) : num_scope.
Notation "a == b" := (eqb N a b) (at level 70) : num_scope.
Notation "# q" := (lit N q%Q) (at level 1, format "# q") : num_scope.
Local Open Scope num_scope.

(** The four [if]s that open [getBackground]. *)
Definition nudge_west (west : num N) : num N :=
  if west == #(-180) then #(-179.9999) else west.
Definition nudge_south (south : num N) : num N :=
  if south == #(-90) then #(-89.9999) else south.
Definition nudge_north (north : num N) : num N :=
  if north == #90 then #89.9999 else north.
Definition nudge_east (east : num N) : num N :=
  if east == #180 then #179.9999 else east.

(** What the outer loop changes: [stepLong] (clamped on the way), the rings
    under construction, and [multiPolygon], whose polygons hold the address
    of their ring. *)
Record tiler := mkTiler {
  stepLong : num N;
  rings : store (Point (num N));
  multiPolygon : list (list ref);
}.

(** [surface.push(p)] *)
Definition push_point (surface : ref) (p : Point (num N)) (st : tiler) : tiler :=
  mkTiler (stepLong st) (push surface p (rings st)) (multiPolygon st).

(** The value of [multiPolygon]: every address replaced by the ring it holds. *)
Definition read_back (st : tiler) : MultiPolygon (num N) :=
  (λ polygon : list ref,
     (λ surface, Some (deref (rings st) surface)) <$> polygon)
    <$> multiPolygon st.

(** The body of the outer loop, at longitude [ln]. *)
Definition slice (fuel : nat) (north east south : num N) (stepLat : num N)
  (ln : num N) (st : tiler) : option tiler :=
  let '(surface, h) := new_array (rings st) in
  let st := mkTiler (stepLong st) h (multiPolygon st ++ [[surface]]) in
  let st :=
    if ln + stepLong st > east
    then mkTiler (east - ln) (rings st) (multiPolygon st)
    else st in
  st ← for_loop fuel (λ ll st, ll <= ln + stepLong st)
         (λ ll st, Some (push_point surface (pt ll north) st))
         (λ ll _, ll + #5) ln st;
  st ← for_loop fuel (λ lt _, lt >= south)
         (λ lt st, Some (push_point surface (pt (ln + stepLong st) lt) st))
         (λ lt _, lt - stepLat) north st;
  st ← for_loop fuel (λ ll _, ll >= ln)
         (λ ll st, Some (push_point surface (pt ll south) st))
         (λ ll _, ll - #5) (ln + stepLong st) st;
  for_loop fuel (λ lt _, lt <= north)
    (λ lt st, Some (push_point surface (pt ln lt) st))
    (λ lt _, lt + stepLat) south st.

(** [stepLong] and [stepLat] as first computed, from the nudged bounds. *)
Definition initial_stepLong (east west : num N) : num N :=
  min N #90 ((east - west) / ceil N ((east - west) / #90)).
Definition initial_stepLat (north south : num N) : num N :=
  (north - south) / ceil N ((north - south) / #90).

(** The state the outer loop ends in. *)
Definition tile (fuel : nat) (north east south west : num N) : option tiler :=
  let west := nudge_west west in
  let south := nudge_south south in
  let north := nudge_north north in
  let east := nudge_east east in
  let stepLat := initial_stepLat north south in
  for_loop fuel (λ ln _, ln < east)
    (slice fuel north east south stepLat)
    (λ ln st, ln + stepLong st) west
    (mkTiler (initial_stepLong east west) [] []).

Definition getBackground (fuel : nat) (north east south west : num N)
  : option (MultiPolygon (num N)) :=
  read_back <$> tile fuel north east south west.

End Background.

Arguments stepLong {N} _.
Arguments rings {N} _.
Arguments multiPolygon {N} _.

(** ** What the loops compute *)

(** The functions below say in one piece what the loops above build step by
    step; the lemmas after them prove that they agree. *)

Section MapperSpec.
Context {num : Type}.

(** Both coordinates of a point are there and nothing else. *)
Definition is_pair (p : Point num) : Prop := length p = 2.

(** The inverse of [pointToGeo] that [multiGeoToPoint] applies to each element. *)
Definition geoToPoint (g : IGeoPoint num) : Point num :=
  [longitude g; latitude g].

(** One polygon converted: the surface if there is one, then the hole if
    there is one, pushed in that order. *)
Definition convert_polygon {A B} (f : A → B) (polygon : list (option A))
  : list (option B) :=
  match index polygon 0 with Some surface => [Some (f surface)] | None => [] end
  ++ match index polygon 1 with Some hole => [Some (f hole)] | None => [] end.

(** A polygon of the data model: at most two rings, each present, each made
    of pairs. *)
Definition polygon_ok (polygon : Polygon num) : Prop :=
  length polygon ≤ 2 ∧
  Forall (λ slot, ∃ ring, slot = Some ring ∧ Forall is_pair ring) polygon.

End MapperSpec.

(** The rings of a multipolygon, and their points, in order. *)
Definition rings_of {num} (mp : MultiPolygon num) : list (Ring num) :=
  mp ≫= omap id.
Definition points_of {num} (mp : MultiPolygon num) : list (Point num) :=
  rings_of mp ≫= id.

Section BackgroundSpec.
Variable N : Number.

(** A point on the antimeridian or on a pole: its longitude is 180 or -180,
    or its latitude is 90 or -90. *)
Definition at_singularity (p : Point (num N)) : bool :=
  match index p 0 with
  | Some lon => eqb N lon (lit N 180) || eqb N lon (lit N (-180))
  | None => false
  end
  || match index p 1 with
     | Some lat => eqb N lat (lit N 90) || eqb N lat (lit N (-90))
     | None => false
     end.

(** The values the variable of [for (v = v0; cond(v); v = incr(v))] takes. *)
Fixpoint trace {V} (fuel : nat) (cond : V → bool) (incr : V → V) (v : V)
  : option (list V) :=
  match fuel with
  | O => None
  | S fuel' =>
      if cond v then (v ::.) <$> trace fuel' cond incr (incr v) else Some []
  end.

(** The four edges of the slice at [ln], of width [step]. *)
Definition top_edge (fuel : nat) (north ln step : num N) : option (Ring (num N)) :=
  fmap (M := list) (λ ll, pt ll north) <$>
    trace fuel (λ ll, leb N ll (add N ln step)) (λ ll, add N ll (lit N 5)) ln.
Definition right_edge (fuel : nat) (north south stepLat ln step : num N)
  : option (Ring (num N)) :=
  fmap (M := list) (λ lt, pt (add N ln step) lt) <$>
    trace fuel (λ lt, leb N south lt) (λ lt, sub N lt stepLat) north.
Definition bottom_edge (fuel : nat) (south ln step : num N) : option (Ring (num N)) :=
  fmap (M := list) (λ ll, pt ll south) <$>
    trace fuel (λ ll, leb N ln ll) (λ ll, sub N ll (lit N 5)) (add N ln step).
Definition left_edge (fuel : nat) (north south stepLat ln : num N)
  : option (Ring (num N)) :=
  fmap (M := list) (λ lt, pt ln lt) <$>
    trace fuel (λ lt, leb N lt north) (λ lt, add N lt stepLat) south.

Definition ring_of (fuel : nat) (north south stepLat ln step : num N)
  : option (Ring (num N)) :=
  top ← top_edge fuel north ln step;
  right ← right_edge fuel north south stepLat ln step;
  bottom ← bottom_edge fuel south ln step;
  left ← left_edge fuel north south stepLat ln;
  Some (top ++ right ++ bottom ++ left).

(** [stepLong] after the clamp of the slice at [ln]. *)
Definition clamp (east ln step : num N) : num N :=
  if ltb N east (add N ln step) then sub N east ln else step.

(** The slices from [ln] on, west to east: each with its western bound, its
    width and its ring.  [inner] is the fuel of the edge loops. *)
Fixpoint slices (inner fuel : nat) (north east south stepLat ln step : num N)
  : option (list (num N * num N * Ring (num N))) :=
  match fuel with
  | O => None
  | S fuel' =>
      if ltb N ln east
      then
        let step := clamp east ln step in
        ring ← ring_of inner north south stepLat ln step;
        rest ← slices inner fuel' north east south stepLat (add N ln step) step;
        Some ((ln, step, ring) :: rest)
      else Some []
  end.

Definition slice_west (s : num N * num N * Ring (num N)) : num N := s.1.1.
Definition slice_width (s : num N * num N * Ring (num N)) : num N := s.1.2.
Definition slice_ring (s : num N * num N * Ring (num N)) : Ring (num N) := s.2.

(** The polygon [[surface]]. *)
Definition polygon_of (surface : Ring (num N)) : Polygon (num N) :=
  [Some surface].

(** [multiPolygon] once the rings of [h] were pushed: polygon [i] holds the
    address [i]. *)
Definition addresses (h : store (Point (num N))) : list (list ref) :=
  (λ i, [i]) <$> seq 0 (length h).

(** The slices of a call of [getBackground]. *)
Definition background_slices (fuel : nat) (north east south west : num N)
  : option (list (num N * num N * Ring (num N))) :=
  let west := nudge_west N west in
  let south := nudge_south N south in
  let north := nudge_north N north in
  let east := nudge_east N east in
  slices fuel fuel north east south (initial_stepLat N north south) west
    (initial_stepLong N east west).

End BackgroundSpec.

Arguments trace {V} _ _ _ _.

(** A natural number as a rational. *)
Definition Qc_of_nat (n : nat) : Qc := Q2Qc (inject_Z (Z.of_nat n)).

(** [ceil((hi - lo) / 90)], the number of sections [stepLong] and [stepLat]
    divide a span in. *)
Definition sections (hi lo : Qc) : nat :=
  Z.to_nat (Qceiling ((this hi - this lo) / 90)%Q).

(** The span divided in its sections: [(hi - lo) / ceil((hi - lo) / 90)]. *)
Definition span_step (hi lo : Qc) : Qc :=
  ((hi - lo) / Qc_of_nat (sections hi lo))%Qc.

(** The points of a top or bottom edge of width [step]: one every 5 degrees
    from its start. *)
Definition edge_points (step : Qc) : nat :=
  S (Z.to_nat (Qfloor (this step / 5)%Q)).

(** The points of a left or right edge: one per section and one more when
    north is above south, one when they are equal, none otherwise. *)
Definition lat_points (north south : Qc) : nat :=
  if Exact.Qc_ltb south north then S (sections north south)
  else if Exact.Qc_eqb north south then 1 else 0.

(** [n] numbers from [lo] on, each the one before plus [d]. *)
Fixpoint progression (lo d : Qc) (n : nat) : list Exact.xnum :=
  match n with
  | O => []
  | S n' => Exact.Fin lo :: progression (lo + d)%Qc d n'
  end.

(** The ring of the slice at [ln], of width [step], without rounding: top,
    right, bottom and left edge. *)
Definition exact_ring (north south ln step : Qc) : Ring Exact.xnum :=
  ((λ ll, pt ll (Exact.Fin north))
     <$> progression ln (Q2Qc 5) (edge_points step))
  ++ ((λ lt, pt (Exact.Fin (ln + step)%Qc) lt)
        <$> progression north (- span_step north south)%Qc
              (lat_points north south))
  ++ ((λ ll, pt ll (Exact.Fin south))
        <$> progression (ln + step)%Qc (- Q2Qc 5)%Qc (edge_points step))
  ++ ((λ lt, pt (Exact.Fin ln) lt)
        <$> progression south (span_step north south) (lat_points north south)).

(** The slices between [west] and [east], without rounding: as many as the
    span has sections, all of the same width. *)
Definition exact_slices (north east south west : Qc)
  : list (Exact.xnum * Exact.xnum * Ring Exact.xnum) :=
  let step := span_step east west in
  (λ k,
     let ln := (west + Qc_of_nat k * step)%Qc in
     (Exact.Fin ln, Exact.Fin step, exact_ring north south ln step))
    <$> seq 0 (sections east west).

(** [a == b] rules out [b < a]: what a box of no width needs of the
    comparisons. *)
Definition eq_not_lt (N : Number) : Prop :=
  ∀ a b : num N, eqb N a b = true → ltb N b a = false.

(** The two implementations of the numbers. *)
Abbreviation B := Binary64.number.
Abbreviation X := Exact.number.

(** Fuel that is enough for a box: more than its slices and more than the
    points of any of its edges. *)
Definition enough_fuel (n e s w : Qc) : nat :=
  S ((sections e w `max` edge_points (span_step e w)) `max` lat_points n s).

Section SmallBox.
Local Open Scope float_scope.

(** The ring of [getBackground(10, 10, -10, -10)], edge by edge. *)
Definition small_top : list (Point float) :=
  [pt (-10) 10; pt (-5) 10; pt 0 10; pt 5 10; pt 10 10].
Definition small_right : list (Point float) := [pt 10 10; pt 10 (-10)].
Definition small_bottom : list (Point float) :=
  [pt 10 (-10); pt 5 (-10); pt 0 (-10); pt (-5) (-10); pt (-10) (-10)].
Definition small_left : list (Point float) := [pt (-10) (-10); pt (-10) 10].
Definition small_ring : list (Point float) :=
  small_top ++ small_right ++ small_bottom ++ small_left.

End SmallBox.


Section MapperShapes.
Context {A : Type}.

(** A polygon with at most two rings and no empty slot. *)
Definition two_rings (polygon : list (option A)) : Prop :=
  length polygon ≤ 2 ∧ Forall is_Some polygon.

(** The rings a conversion reads: those present at slots 0 and 1. *)
Definition rings_read (polygon : list (option A)) : list A :=
  omap id (take 2 polygon).

End MapperShapes.

Section Remainders.
Local Open Scope float_scope.

(** [getBackground(50, 100, -50, -100.5)] on binary64 numbers: its west, its
    first [stepLong], the western bounds that adding [stepLong] three times
    reaches, and the widths of its slices. *)
Definition remainder_west : float := Binary64.lit (-100.5).
Definition remainder_step : float := initial_stepLong B 100 remainder_west.
Definition remainder_last : float :=
  remainder_west + remainder_step + remainder_step + remainder_step.
Definition remainder_bounds : list float :=
  [remainder_west; remainder_west + remainder_step;
   remainder_west + remainder_step + remainder_step; remainder_last].
Definition remainder_widths : list float :=
  [remainder_step; remainder_step; remainder_step; 100 - remainder_last].

(** Two boxes of 20 degrees by 58.1 whose [stepLat] is rounded up to
    58.100000000000009: one between the latitudes -89.9 and -31.8, the
    other between 31.8 and 89.9. *)
Definition low_south : float := Binary64.lit (-89.9).
Definition low_north : float := Binary64.lit (-31.8).
Definition high_south : float := Binary64.lit 31.8.
Definition high_north : float := Binary64.lit 89.9.

End Remainders.


(** * The two number implementations at work *)

(** The literals of the source are the floats Rocq reads them as, and
    [Math.ceil] and [Math.min] behave as ECMAScript says on the cases that
    matter here. *)
Set Warnings "-inexact-float".
Example binary64_literals :
  Binary64.lit (-179.9999) = (-179.9999)%float ∧
  Binary64.lit (-89.9999) = (-89.9999)%float ∧
  Binary64.lit 89.9999 = 89.9999%float ∧
  Binary64.lit 179.9999 = 179.9999%float ∧
  Binary64.lit (-180) = (-180)%float ∧ Binary64.lit 5 = 5%float.
Proof. repeat split; vm_compute; reflexivity. Qed.

Set Warnings "inexact-float".

Example binary64_ceil :
  Binary64.ceil 3.75%float = 4%float ∧
  Binary64.ceil (-3.75)%float = (-3)%float ∧
  Binary64.ceil 4%float = 4%float ∧
  Prim2SF (Binary64.ceil (-0.5)%float) = S754_zero true ∧
  Prim2SF (Binary64.ceil 0%float) = S754_zero false ∧
  Binary64.ceil 0x1p-1074%float = 1%float ∧
  Binary64.ceil 0x1.fffffffffffffp+51%float = 0x1p+52%float ∧
  Binary64.ceil 0x1p+300%float = 0x1p+300%float ∧
  Binary64.ceil PrimFloat.infinity = PrimFloat.infinity ∧
  Prim2SF (Binary64.ceil PrimFloat.nan) = S754_nan.
Proof. repeat split; vm_compute; reflexivity. Qed.

Example binary64_min :
  Binary64.min 90%float 85%float = 85%float ∧
  Binary64.min 90%float PrimFloat.infinity = 90%float ∧
  Prim2SF (Binary64.min 90%float PrimFloat.nan) = S754_nan ∧
  Prim2SF (Binary64.min 0%float (-0)%float) = S754_zero true.
Proof. repeat split; vm_compute; reflexivity. Qed.

(** Division by zero and the sign of zero without rounding, as in
    IEEE 754. *)
Example exact_special_values :
  Exact.div (Exact.lit 0) (Exact.lit 0) = Exact.NaN ∧
  Exact.div (Exact.lit 1) (Exact.lit 0) = Exact.PInf ∧
  Exact.ceil (Exact.lit (-0.5)) = Exact.NegZero ∧
  Exact.div (Exact.lit (-10)) Exact.NegZero = Exact.PInf ∧
  Exact.min (Exact.lit 90) Exact.PInf = Exact.lit 90 ∧
  Exact.sub (Exact.lit 1) Exact.NaN = Exact.NaN ∧
  Exact.leb (Exact.lit 1) Exact.NaN = false.
Proof. repeat split; reflexivity. Qed.

(** * Lemmas on arrays and loops *)


Lemma for_each_from_push {A B} (f : A → B) (a : list A) (i : nat) (acc : list B) :
  for_each_from i a (λ _ x acc, acc ++ [f x]) acc = acc ++ (f <$> a).
Proof.
  revert i acc. induction a as [|x a IH]; intros i acc; simpl.
  - by rewrite app_nil_r.
  - rewrite IH. by rewrite <- app_assoc.
Qed.

Lemma array_set_end {A} (a : list A) (v : A) :
  array_set a (length a) v = a ++ [v].
Proof. unfold array_set. case_decide; [lia | done]. Qed.

Lemma array_push_at_end {A} (a : list (list (option A))) (p : list (option A))
  (x : A) :
  array_push_at (a ++ [p]) (length a) x = a ++ [p ++ [Some x]].
Proof.
  unfold array_push_at. rewrite alter_app_r_alt by lia.
  by replace (length a - length a) with 0 by lia.
Qed.

Lemma push_end {A} (h : store A) (r : list A) (x : A) :
  push (length h) x (h ++ [r]) = h ++ [r ++ [x]].
Proof.
  unfold push. rewrite alter_app_r_alt by lia.
  by replace (length h - length h) with 0 by lia.
Qed.

Lemma each_push {A B} (f : B → A) (l : list B) (h : store A) (r : list A) :
  each l (λ x h', push (length h) (f x) h') (h ++ [r]) = h ++ [r ++ (f <$> l)].
Proof.
  unfold each. revert r. induction l as [|x l IH]; intros r; simpl.
  - by rewrite app_nil_r.
  - rewrite push_end, IH. by rewrite <- app_assoc.
Qed.

Lemma deref_seq {A} (h : store A) : deref h <$> seq 0 (length h) = h.
Proof.
  induction h as [|r h IH] using rev_ind; [done|].
  rewrite length_app; simpl. rewrite Nat.add_1_r, seq_S, fmap_app; simpl.
  f_equal.
  - rewrite <- IH at 3. apply list_fmap_ext. intros i j Hj.
    apply lookup_seq in Hj as [-> Hlt]. unfold deref.
    by rewrite lookup_app_l by lia.
  - unfold deref. rewrite lookup_app_r by lia.
    by replace (length h - length h) with 0 by lia.
Qed.

(** * The coordinate mapper *)

Section MapperFacts.
Context {num : Type}.
Implicit Types (p : Point num) (g : IGeoPoint num).

Lemma multiPointToGeo_map (points : list (Point num)) :
  multiPointToGeo points = pointToGeo <$> points.
Proof. unfold multiPointToGeo, for_each. by rewrite for_each_from_push. Qed.

Lemma multiGeoToPoint_map (geoPoints : list (IGeoPoint num)) :
  multiGeoToPoint geoPoints = geoToPoint <$> geoPoints.
Proof. unfold multiGeoToPoint, for_each. by rewrite for_each_from_push. Qed.

Lemma multiLineToGeo_map (multiLine : list (list (Point num))) :
  multiLineToGeo multiLine = multiPointToGeo <$> multiLine.
Proof. unfold multiLineToGeo, for_each. by rewrite for_each_from_push. Qed.

Lemma geoToPoint_pointToGeo p : is_pair p → geoToPoint (pointToGeo p) = p.
Proof.
  unfold is_pair. destruct p as [|x [|y [|z p]]]; simpl; try discriminate.
  done.
Qed.

Lemma multiGeoToPoint_multiPointToGeo (points : list (Point num)) :
  Forall is_pair points → multiGeoToPoint (multiPointToGeo points) = points.
Proof.
  intros Hpairs. rewrite multiPointToGeo_map, multiGeoToPoint_map.
  induction Hpairs as [|p points Hp _ IH]; [done|].
  rewrite !fmap_cons. by rewrite geoToPoint_pointToGeo, IH.
Qed.

(** The polygon loops write the polygon under construction at [i], which is
    the end of the output, and push onto it there. *)
Lemma for_each_from_set_length {A B} (f : A → B)
  (a : list (list (option A))) (acc : list (list (option B))) :
  for_each_from (length acc) a
    (λ i polygon out,
       let surface := index polygon 0 in
       let hole := index polygon 1 in
       let out := array_set out i [] in
       let out :=
         match surface with
         | Some surface => array_push_at out i (f surface)
         | None => out
         end in
       match hole with
       | Some hole => array_push_at out i (f hole)
       | None => out
       end) acc
  = acc ++ (convert_polygon f <$> a).
Proof.
  revert acc. induction a as [|polygon a IH]; intros acc; simpl.
  - by rewrite app_nil_r.
  - rewrite array_set_end.
    assert (Hstep :
      match index polygon 1 with
      | Some hole =>
          array_push_at
            match index polygon 0 with
            | Some surface => array_push_at (acc ++ [[]]) (length acc) (f surface)
            | None => acc ++ [[]]
            end (length acc) (f hole)
      | None =>
          match index polygon 0 with
          | Some surface => array_push_at (acc ++ [[]]) (length acc) (f surface)
          | None => acc ++ [[]]
          end
      end = acc ++ [convert_polygon f polygon]).
    { unfold convert_polygon.
      destruct (index polygon 0), (index polygon 1); simpl;
        by rewrite ?array_push_at_end. }
    rewrite Hstep.
    replace (S (length acc)) with (length (acc ++ [convert_polygon f polygon]))
      by (rewrite length_app; simpl; lia).
    rewrite IH. by rewrite <- app_assoc.
Qed.

Lemma multiPolygonToGeo_map (multiPolygon : list (Polygon num)) :
  multiPolygonToGeo multiPolygon = convert_polygon multiPointToGeo <$> multiPolygon.
Proof.
  exact (for_each_from_set_length multiPointToGeo multiPolygon []).
Qed.

Lemma multiGeoPolygonToMultipolygon_map (multiGeoPolygon : list (GeoPolygon num)) :
  multiGeoPolygonToMultipolygon multiGeoPolygon
  = convert_polygon multiGeoToPoint <$> multiGeoPolygon.
Proof.
  exact (for_each_from_set_length multiGeoToPoint multiGeoPolygon []).
Qed.

End MapperFacts.

Section MapperTheorems.
Context {num : Type}.
Implicit Types (p : Point num) (g : IGeoPoint num).

Lemma multiGeoLineToMultiLine_loop (multiGeoLine : list (list (IGeoPoint num)))
  (h : list (list (Point num))) (addresses : list nat) :
  addresses = seq 0 (length h) →
  each multiGeoLine
    (λ segment '(h, multiLine),
       let '(multiLineSegment, h) := new_array h in
       let multiLine := multiLine ++ [multiLineSegment] in
       let h :=
         each segment
           (λ geoPoint h,
              push multiLineSegment [longitude geoPoint; latitude geoPoint] h)
           h in
       (h, multiLine))
    (h, addresses)
  = (h ++ (fmap (M := list) geoToPoint <$> multiGeoLine),
     seq 0 (length h + length multiGeoLine)).
Proof.
  intros ->. unfold each at 1.
  match goal with |- fold_left ?f _ _ = _ => set (body := f) end.
  assert (Hstep : ∀ segment (h : list (list (Point num))),
    body (h, seq 0 (length h)) segment
    = (h ++ [geoToPoint <$> segment],
       seq 0 (length (h ++ [geoToPoint <$> segment])))).
  { intros segment h0. unfold body. cbn [new_array]. cbv beta iota.
    rewrite (each_push (λ g, [longitude g; latitude g]) segment h0 []).
    rewrite length_app. simpl. by rewrite Nat.add_1_r, seq_S. }
  clearbody body. revert h.
  induction multiGeoLine as [|segment rest IH]; intros h; cbn [fold_left].
  - by rewrite app_nil_r, Nat.add_0_r.
  - rewrite Hstep, IH. rewrite fmap_cons, <- app_assoc, length_app. simpl.
    do 2 f_equal. lia.
Qed.

Lemma multiGeoLineToMultiLine_map (multiGeoLine : list (list (IGeoPoint num))) :
  multiGeoLineToMultiLine multiGeoLine = multiGeoToPoint <$> multiGeoLine.
Proof.
  unfold multiGeoLineToMultiLine.
  pose proof (multiGeoLineToMultiLine_loop multiGeoLine [] [] eq_refl) as Hloop.
  match goal with
  | |- (let '(_, _) := ?loop in _) = _ =>
      match type of Hloop with
      | _ = ?result => replace loop with result by (symmetry; exact Hloop)
      end
  end.
  rewrite app_nil_l. cbn [length Nat.add].
  replace (length multiGeoLine)
    with (length (fmap (M := list) geoToPoint <$> multiGeoLine))
    by apply length_fmap.
  rewrite deref_seq. apply list_fmap_ext. intros _ segment _.
  by rewrite multiGeoToPoint_map.
Qed.

Lemma convert_polygon_roundtrip (polygon : Polygon num) :
  polygon_ok polygon →
  convert_polygon multiGeoToPoint (convert_polygon multiPointToGeo polygon)
  = polygon.
Proof.
  intros [Hlen Hslots].
  destruct polygon as [|s0 [|s1 [|s2 polygon]]]; simpl in Hlen; try lia.
  - done.
  - apply Forall_cons_1 in Hslots as [(surface & -> & Hs) _].
    unfold convert_polygon; simpl.
    by rewrite multiGeoToPoint_multiPointToGeo.
  - apply Forall_cons_1 in Hslots as [(surface & -> & Hs) Hslots].
    apply Forall_cons_1 in Hslots as [(hole & -> & Hh) _].
    unfold convert_polygon; simpl.
    by rewrite !multiGeoToPoint_multiPointToGeo.
Qed.

(** C6. For every multipolygon of the data model -- each polygon has at most
    two rings, all present, and every point is a [longitude, latitude] pair
    -- converting to geo points and back gives the multipolygon itself. *)
Theorem multiPolygon_roundtrip (M : list (Polygon num)) :
  Forall polygon_ok M →
  multiGeoPolygonToMultipolygon (multiPolygonToGeo M) = M.
Proof.
  intros HM.
  rewrite multiPolygonToGeo_map, multiGeoPolygonToMultipolygon_map.
  induction HM as [|polygon M Hp _ IH]; [done|].
  rewrite !fmap_cons. by rewrite convert_polygon_roundtrip, IH.
Qed.

(** C7, as the code has it.  A polygon with a hole at slot 1 and nothing at
    slot 0 is converted, in either direction, to a polygon of one ring: the
    converted hole, at slot 0.  The output polygon starts empty and the hole
    is the only ring pushed onto it. *)
Theorem hole_without_surface (M : list (Polygon num)) (G : list (GeoPolygon num))
  (i : nat) (polygon : Polygon num) (geoPolygon : GeoPolygon num)
  (hole : Ring num) (geoHole : GeoRing num) :
  M !! i = Some polygon → index polygon 0 = None → index polygon 1 = Some hole →
  G !! i = Some geoPolygon → index geoPolygon 0 = None →
  index geoPolygon 1 = Some geoHole →
  multiPolygonToGeo M !! i = Some [Some (multiPointToGeo hole)] ∧
  multiGeoPolygonToMultipolygon G !! i = Some [Some (multiGeoToPoint geoHole)].
Proof.
  intros HM Hs Hh HG Hgs Hgh.
  rewrite multiPolygonToGeo_map, multiGeoPolygonToMultipolygon_map.
  rewrite !list_lookup_fmap, HM, HG. simpl.
  unfold convert_polygon. by rewrite Hs, Hh, Hgs, Hgh.
Qed.

(** C8. Converting a sequence of points to geo points and back is the
    identity when every point is a pair; the conversion keeps the length and
    the order: element [i] of the output is element [i] of the input,
    converted. *)
Theorem multiPoint_roundtrip (P : list (Point num)) :
  Forall is_pair P →
  multiGeoToPoint (multiPointToGeo P) = P ∧
  length (multiPointToGeo P) = length P ∧
  ∀ i, multiPointToGeo P !! i = pointToGeo <$> P !! i.
Proof.
  intros HP. split; [by apply multiGeoToPoint_multiPointToGeo|].
  rewrite multiPointToGeo_map. split; [apply length_fmap|].
  intros i. apply list_lookup_fmap.
Qed.

(** C9. [multiGeoLineToMultiLine], with its own loops and its segments
    filled after they were pushed, is [multiGeoToPoint] applied to every
    line; on the conversion of a multiline whose points are pairs it gives
    the multiline back. *)
Theorem multiGeoLineToMultiLine_equiv (G : list (list (IGeoPoint num)))
  (L : list (list (Point num))) :
  Forall (Forall is_pair) L →
  multiGeoLineToMultiLine G = multiGeoToPoint <$> G ∧
  multiGeoLineToMultiLine (multiLineToGeo L) = L.
Proof.
  intros HL. split; [apply multiGeoLineToMultiLine_map|].
  rewrite multiGeoLineToMultiLine_map, multiLineToGeo_map.
  induction HL as [|line L Hline _ IH]; [done|].
  rewrite !fmap_cons. by rewrite multiGeoToPoint_multiPointToGeo, IH.
Qed.

(** Every conversion keeps the length and the order of what it converts:
    element [i] of the output is element [i] of the input, converted. *)
Theorem mapper_keeps_order (i : nat) (points : list (Point num))
  (geoPoints : list (IGeoPoint num)) (multiLine : list (list (Point num)))
  (multiGeoLine : list (list (IGeoPoint num)))
  (multiPolygon : list (Polygon num)) (multiGeoPolygon : list (GeoPolygon num)) :
  multiPointToGeo points !! i = pointToGeo <$> points !! i ∧
  multiGeoToPoint geoPoints !! i = geoToPoint <$> geoPoints !! i ∧
  multiLineToGeo multiLine !! i = multiPointToGeo <$> multiLine !! i ∧
  multiGeoLineToMultiLine multiGeoLine !! i
  = multiGeoToPoint <$> multiGeoLine !! i ∧
  multiPolygonToGeo multiPolygon !! i
  = convert_polygon multiPointToGeo <$> multiPolygon !! i ∧
  multiGeoPolygonToMultipolygon multiGeoPolygon !! i
  = convert_polygon multiGeoToPoint <$> multiGeoPolygon !! i ∧
  length (multiPointToGeo points) = length points ∧
  length (multiGeoToPoint geoPoints) = length geoPoints ∧
  length (multiLineToGeo multiLine) = length multiLine ∧
  length (multiGeoLineToMultiLine multiGeoLine) = length multiGeoLine ∧
  length (multiPolygonToGeo multiPolygon) = length multiPolygon ∧
  length (multiGeoPolygonToMultipolygon multiGeoPolygon)
  = length multiGeoPolygon.
Proof.
  rewrite multiPointToGeo_map, multiGeoToPoint_map, multiLineToGeo_map,
    multiGeoLineToMultiLine_map, multiPolygonToGeo_map,
    multiGeoPolygonToMultipolygon_map.
  rewrite !list_lookup_fmap, !length_fmap. done.
Qed.

End MapperTheorems.

Section MapperExamples.
Local Open Scope Z_scope.

Lemma multiPolygon_roundtrip_witness :
  let M : list (Polygon Z) :=
    [[Some [pt 0 0; pt 4 0; pt 4 4; pt 0 0]; Some [pt 1 1; pt 2 1; pt 1 1]];
     [Some [pt 9 9; pt 8 9; pt 9 9]]; []] in
  Forall polygon_ok M ∧
  multiGeoPolygonToMultipolygon (multiPolygonToGeo M) = M.
Proof.
  assert (Forall polygon_ok
    ([[Some [pt 0 0; pt 4 0; pt 4 4; pt 0 0]; Some [pt 1 1; pt 2 1; pt 1 1]];
      [Some [pt 9 9; pt 8 9; pt 9 9]]; []] : list (Polygon Z))) as HM.
  { repeat constructor; simpl; try lia;
      eexists; (split; [reflexivity|]); by repeat constructor. }
  split; [exact HM|]. exact (multiPolygon_roundtrip _ HM).
Defined.

(** C7, refuted: a polygon with a hole at slot 1 and [undefined] at slot 0
    is converted to a polygon of length 1 that holds the converted hole at
    slot 0, not to an empty array followed by the hole. *)
Lemma hole_moves_to_slot_0 :
  multiPolygonToGeo [[None; Some [pt 1 2; pt 3 4]]]
  = [[Some [mkGeo (Some 1) (Some 2); mkGeo (Some 3) (Some 4)]]] ∧
  multiPolygonToGeo [[None; Some [pt 1 2; pt 3 4]]]
  ≠ [[Some []; Some [mkGeo (Some 1) (Some 2); mkGeo (Some 3) (Some 4)]]] ∧
  multiGeoPolygonToMultipolygon
    [[None; Some [mkGeo (Some 1) (Some 2); mkGeo (Some 3) (Some 4)]]]
  = [[Some [pt 1 2; pt 3 4]]] ∧
  multiGeoPolygonToMultipolygon
    [[None; Some [mkGeo (Some 1) (Some 2); mkGeo (Some 3) (Some 4)]]]
  ≠ [[Some []; Some [pt 1 2; pt 3 4]]].
Proof. repeat split; (reflexivity || discriminate). Qed.

Lemma hole_without_surface_witness :
  multiPolygonToGeo [[None; Some [pt 1 2; pt 3 4]]] !! 0%nat
  = Some [Some (multiPointToGeo [pt 1 2; pt 3 4])] ∧
  multiGeoPolygonToMultipolygon [[None; Some [mkGeo (Some 1) (Some 2)]]] !! 0%nat
  = Some [Some (multiGeoToPoint [mkGeo (Some 1) (Some 2)])].
Proof.
  exact (hole_without_surface
           [[None; Some [pt 1 2; pt 3 4]]] [[None; Some [mkGeo (Some 1) (Some 2)]]]
           0 _ _ _ _ eq_refl eq_refl eq_refl eq_refl eq_refl eq_refl).
Defined.

Lemma multiPoint_roundtrip_witness :
  let P : list (Point Z) := [pt 1 2; pt (-3) 4; pt 1 2] in
  Forall is_pair P ∧ multiGeoToPoint (multiPointToGeo P) = P.
Proof.
  assert (Forall is_pair ([pt 1 2; pt (-3) 4; pt 1 2] : list (Point Z))) as HP
    by by repeat constructor.
  split; [exact HP|]. exact (proj1 (multiPoint_roundtrip _ HP)).
Defined.

Lemma multiGeoLineToMultiLine_equiv_witness :
  let L : list (list (Point Z)) := [[pt 1 2; pt 3 4]; []; [pt 5 6]] in
  Forall (Forall is_pair) L ∧
  multiGeoLineToMultiLine (multiLineToGeo L) = L.
Proof.
  assert (Forall (Forall is_pair)
            ([[pt 1 2; pt 3 4]; []; [pt 5 6]] : list (list (Point Z)))) as HL
    by by repeat constructor.
  split; [exact HL|].
  exact (proj2 (multiGeoLineToMultiLine_equiv [[mkGeo (Some 7) None]] _ HL)).
Defined.

End MapperExamples.

Section MapperLaws.
Context {num : Type}.
Implicit Types (p : Point num) (g : IGeoPoint num).

Lemma pointToGeo_geoToPoint g : pointToGeo (geoToPoint g) = g.
Proof. by destruct g. Qed.

Lemma multiPointToGeo_multiGeoToPoint (G : list (IGeoPoint num)) :
  multiPointToGeo (multiGeoToPoint G) = G.
Proof.
  rewrite multiGeoToPoint_map, multiPointToGeo_map, <- list_fmap_compose.
  rewrite <- (list_fmap_id G) at 2. apply list_fmap_ext. intros _ g _.
  apply pointToGeo_geoToPoint.
Qed.

Lemma multiGeoToPoint_pairs (G : list (IGeoPoint num)) :
  Forall is_pair (multiGeoToPoint G).
Proof. rewrite multiGeoToPoint_map. by apply Forall_fmap, Forall_true. Qed.

Lemma convert_polygon_rings_read {A B} (f : A → B) (polygon : list (option A)) :
  convert_polygon f polygon = Some ∘ f <$> rings_read polygon.
Proof.
  unfold convert_polygon, rings_read, index.
  by destruct polygon as [|[s|] [|[h|] polygon]].
Qed.

Lemma convert_polygon_two_rings {A B} (f : A → B) (polygon : list (option A)) :
  two_rings (convert_polygon f polygon).
Proof.
  unfold convert_polygon, two_rings.
  destruct (index polygon 0), (index polygon 1); simpl;
    (split; [lia|by repeat constructor]).
Qed.

Lemma convert_polygon_geo_roundtrip (polygon : GeoPolygon num) :
  two_rings polygon →
  convert_polygon multiPointToGeo (convert_polygon multiGeoToPoint polygon)
  = polygon.
Proof.
  intros [Hlen Hslots].
  destruct polygon as [|s0 [|s1 [|s2 polygon]]]; simpl in Hlen; try lia.
  - done.
  - apply Forall_cons_1 in Hslots as [[surface ->] _].
    unfold convert_polygon; simpl.
    by rewrite multiPointToGeo_multiGeoToPoint.
  - apply Forall_cons_1 in Hslots as [[surface ->] Hslots].
    apply Forall_cons_1 in Hslots as [[hole ->] _].
    unfold convert_polygon; simpl.
    by rewrite !multiPointToGeo_multiGeoToPoint.
Qed.

Lemma convert_polygon_ok (polygon : GeoPolygon num) :
  polygon_ok (convert_polygon multiGeoToPoint polygon).
Proof.
  split; [apply convert_polygon_two_rings|].
  unfold convert_polygon.
  destruct (index polygon 0), (index polygon 1); simpl;
    repeat constructor; eexists; (split; [done|apply multiGeoToPoint_pairs]).
Qed.

Lemma roundtrip_of_ok (M : list (Polygon num)) :
  Forall polygon_ok M →
  multiGeoPolygonToMultipolygon (multiPolygonToGeo M) = M.
Proof.
  intros HM.
  rewrite multiPolygonToGeo_map, multiGeoPolygonToMultipolygon_map.
  induction HM as [|polygon M Hp _ IH]; [done|].
  rewrite !fmap_cons. by rewrite convert_polygon_roundtrip, IH.
Qed.

Lemma roundtrip_ok (M : list (Polygon num)) :
  Forall polygon_ok (multiGeoPolygonToMultipolygon (multiPolygonToGeo M)).
Proof.
  rewrite multiGeoPolygonToMultipolygon_map.
  apply Forall_fmap, Forall_true. intros polygon. apply convert_polygon_ok.
Qed.

(** The way back.  Converting geo points to points and back gives the geo
    points themselves, whatever their coordinates are, [undefined] included;
    so does converting a geo multiline to a multiline and back. *)
Theorem geo_roundtrip (G : list (IGeoPoint num))
  (GL : list (list (IGeoPoint num))) :
  multiPointToGeo (multiGeoToPoint G) = G ∧
  multiLineToGeo (multiGeoLineToMultiLine GL) = GL.
Proof.
  split; [apply multiPointToGeo_multiGeoToPoint|].
  rewrite multiGeoLineToMultiLine_map, multiLineToGeo_map, <- list_fmap_compose.
  rewrite <- (list_fmap_id GL) at 2. apply list_fmap_ext. intros _ line _.
  apply multiPointToGeo_multiGeoToPoint.
Qed.

(** A geo multipolygon whose polygons have at most two rings and no empty
    slot is given back by the conversion to a multipolygon and back. *)
Theorem geoPolygon_roundtrip (G : list (GeoPolygon num)) :
  Forall two_rings G →
  multiPolygonToGeo (multiGeoPolygonToMultipolygon G) = G.
Proof.
  intros HG.
  rewrite multiGeoPolygonToMultipolygon_map, multiPolygonToGeo_map.
  induction HG as [|polygon G Hp _ IH]; [done|].
  rewrite !fmap_cons. by rewrite convert_polygon_geo_roundtrip, IH.
Qed.

(** What the round trip of points does to any input: of every point it keeps
    the coordinates at index 0 and 1 and nothing else, [undefined] standing
    for a missing one.  So it always returns pairs, and it returns its input
    exactly when every point of the input is a pair. *)
Theorem point_roundtrip_keeps_two_coordinates (P : list (Point num)) :
  multiGeoToPoint (multiPointToGeo P) = (λ p, [index p 0; index p 1]) <$> P ∧
  Forall is_pair (multiGeoToPoint (multiPointToGeo P)) ∧
  (multiGeoToPoint (multiPointToGeo P) = P ↔ Forall is_pair P).
Proof.
  split; [|split; [apply multiGeoToPoint_pairs|]].
  - by rewrite multiPointToGeo_map, multiGeoToPoint_map, <- list_fmap_compose.
  - split; [|apply multiGeoToPoint_multiPointToGeo].
    intros <-. apply multiGeoToPoint_pairs.
Qed.

(** The polygon conversions read slots 0 and 1 of a polygon and nothing
    else: the output polygon holds the conversions of the rings present
    there, in this order and with no gap, so it has at most two rings, and a
    ring at slot 2 or beyond is dropped. *)
Theorem polygon_conversion_reads_two_slots (M : list (Polygon num))
  (G : list (GeoPolygon num)) :
  multiPolygonToGeo M
  = (λ polygon, Some ∘ multiPointToGeo <$> rings_read polygon) <$> M ∧
  multiGeoPolygonToMultipolygon G
  = (λ polygon, Some ∘ multiGeoToPoint <$> rings_read polygon) <$> G ∧
  Forall two_rings (multiPolygonToGeo M) ∧
  Forall two_rings (multiGeoPolygonToMultipolygon G).
Proof.
  rewrite multiPolygonToGeo_map, multiGeoPolygonToMultipolygon_map.
  repeat split;
    try (apply list_fmap_ext; intros _ polygon _;
         apply convert_polygon_rings_read);
    apply Forall_fmap, Forall_true; intros polygon;
    apply convert_polygon_two_rings.
Qed.

(** The round trip of multipolygons always lands in the data model, doing it
    twice is doing it once, and it gives its input back exactly when the
    input is of the data model: at most two rings per polygon, none
    missing, every point a pair. *)
Theorem multiPolygon_roundtrip_iff (M : list (Polygon num)) :
  let back := multiGeoPolygonToMultipolygon (multiPolygonToGeo M) in
  Forall polygon_ok back ∧
  multiGeoPolygonToMultipolygon (multiPolygonToGeo back) = back ∧
  (back = M ↔ Forall polygon_ok M).
Proof.
  cbv zeta. pose proof (roundtrip_ok M) as Hok.
  split; [done|]. split; [by apply roundtrip_of_ok|].
  split; [by intros <-|apply roundtrip_of_ok].
Qed.

End MapperLaws.

Section MapperLawsExamples.
Local Open Scope Z_scope.

Lemma geoPolygon_roundtrip_witness :
  let G : list (GeoPolygon Z) :=
    [[Some [mkGeo (Some 1) (Some 2); mkGeo None (Some 4)]; Some []];
     [Some [mkGeo (Some 5) None]]; []] in
  Forall two_rings G ∧
  multiPolygonToGeo (multiGeoPolygonToMultipolygon G) = G.
Proof.
  assert (Forall two_rings
    ([[Some [mkGeo (Some 1) (Some 2); mkGeo None (Some 4)]; Some []];
      [Some [mkGeo (Some 5) None]]; []] : list (GeoPolygon Z))) as HG.
  { repeat first [apply Forall_nil | apply Forall_cons | split];
      first [by eexists | simpl; lia]. }
  split; [exact HG|]. exact (geoPolygon_roundtrip _ HG).
Defined.

End MapperLawsExamples.

(** * The tiler and its slices *)

Section TilerFacts.
Variable N : Number.
Implicit Types (st : tiler N) (h : list (list (Point (num N)))).

Lemma push_point_end (p : Point (num N)) (sl : num N) h
  (r : list (Point (num N))) (mp : list (list nat)) :
  push_point N (length h) p (mkTiler N sl (h ++ [r]) mp)
  = mkTiler N sl (h ++ [r ++ [p]]) mp.
Proof. unfold push_point. cbn [stepLong rings multiPolygon]. by rewrite push_end. Qed.

(** A loop that only pushes onto the ring under construction, the last of
    the store, appends the points of its trace to it. *)
Lemma for_loop_push {V} (fuel : nat) (c : V → num N → bool)
  (f : V → num N → Point (num N)) (g : V → V) (v : V) (sl : num N)
  h (r : list (Point (num N))) (mp : list (list nat)) :
  for_loop fuel (λ v st, c v (stepLong st))
    (λ v st, Some (push_point N (length h) (f v (stepLong st)) st))
    (λ v _, g v) v (mkTiler N sl (h ++ [r]) mp)
  = (λ vs, mkTiler N sl (h ++ [r ++ ((λ v, f v sl) <$> vs)]) mp)
      <$> trace fuel (λ v, c v sl) g v.
Proof.
  revert v r. induction fuel as [|fuel IH]; intros v r; [done|].
  cbn [for_loop trace stepLong]. destruct (c v sl).
  - rewrite push_point_end, IH. rewrite <- option_fmap_compose.
    apply option_fmap_ext. intros vs. cbn [compose fmap list_fmap].
    by rewrite <- app_assoc.
  - cbn. by rewrite app_nil_r.
Qed.

Lemma slice_ring_of (fuel : nat) (north east south stepLat ln sl : num N)
  h (mp : list (list nat)) :
  slice N fuel north east south stepLat ln (mkTiler N sl h mp)
  = (λ ring, mkTiler N (clamp N east ln sl) (h ++ [ring]) (mp ++ [[length h]]))
      <$> ring_of N fuel north south stepLat ln (clamp N east ln sl).
Proof.
  unfold slice, ring_of, new_array. cbn [stepLong rings multiPolygon].
  set (step := clamp N east ln sl).
  replace (if ltb N east (add N ln sl)
           then mkTiler N (sub N east ln) (h ++ [[]]) (mp ++ [[length h]])
           else mkTiler N sl (h ++ [[]]) (mp ++ [[length h]]))
    with (mkTiler N step (h ++ [[]]) (mp ++ [[length h]]))
    by (unfold step, clamp; by destruct (ltb N east (add N ln sl))).
  rewrite (for_loop_push fuel (λ ll sl, leb N ll (add N ln sl))
             (λ ll _, pt ll north) (λ ll, add N ll (lit N 5))).
  unfold top_edge. destruct (trace fuel _ _ ln) as [top|]; [|done]. simpl.
  rewrite (for_loop_push fuel (λ lt _, leb N south lt)
             (λ lt sl, pt (add N ln sl) lt) (λ lt, sub N lt stepLat)).
  unfold right_edge. destruct (trace fuel _ _ north) as [right|]; [|done]. simpl.
  rewrite (for_loop_push fuel (λ ll _, leb N ln ll)
             (λ ll _, pt ll south) (λ ll, sub N ll (lit N 5))).
  unfold bottom_edge.
  destruct (trace fuel _ _ (add N ln step)) as [bottom|]; [|done]. simpl.
  rewrite (for_loop_push fuel (λ lt _, leb N lt north)
             (λ lt _, pt ln lt) (λ lt, add N lt stepLat)).
  unfold left_edge. destruct (trace fuel _ _ south) as [left|]; [|done]. simpl.
  by rewrite <- !app_assoc.
Qed.

End TilerFacts.

Section TilerLoop.
Variable N : Number.
Implicit Types (h : list (list (Point (num N)))).

Lemma addresses_snoc h (r : list (Point (num N))) :
  addresses N (h ++ [r]) = addresses N h ++ [[length h]].
Proof.
  unfold addresses. rewrite length_app. simpl.
  by rewrite Nat.add_1_r, seq_S, fmap_app.
Qed.

Lemma read_back_addresses (sl : num N) h :
  read_back N (mkTiler N sl h (addresses N h)) = polygon_of N <$> h.
Proof.
  unfold read_back, addresses. cbn [rings multiPolygon].
  rewrite <- list_fmap_compose.
  rewrite <- (deref_seq h) at 2. rewrite <- list_fmap_compose.
  apply list_fmap_ext. intros _ i _. done.
Qed.

Lemma tile_loop (inner fuel : nat) (north east south stepLat ln sl : num N) h :
  read_back N <$>
    for_loop fuel (λ ln _, ltb N ln east)
      (slice N inner north east south stepLat)
      (λ ln st, add N ln (stepLong st)) ln (mkTiler N sl h (addresses N h))
  = (λ sls, polygon_of N <$> (h ++ (slice_ring N <$> sls)))
      <$> slices N inner fuel north east south stepLat ln sl.
Proof.
  revert ln sl h. induction fuel as [|fuel IH]; intros ln sl h; [done|].
  cbn [for_loop slices]. destruct (ltb N ln east).
  - rewrite slice_ring_of.
    destruct (ring_of N inner north south stepLat ln (clamp N east ln sl))
      as [ring|]; [|done].
    cbn [fmap option_fmap option_map mbind option_bind stepLong].
    rewrite <- (addresses_snoc h ring), IH.
    destruct (slices N inner fuel north east south stepLat _ _) as [rest|];
      [|done].
    cbn. by rewrite <- app_assoc.
  - cbn [fmap option_fmap option_map list_fmap].
    by rewrite read_back_addresses, app_nil_r.
Qed.

(** [getBackground] returns one polygon per slice, in the order of the
    slices, each holding the ring of its slice and nothing else. *)
Lemma getBackground_slices (fuel : nat) (north east south west : num N) :
  getBackground N fuel north east south west
  = fmap (M := list) (λ s, polygon_of N (slice_ring N s))
      <$> background_slices N fuel north east south west.
Proof.
  unfold getBackground, tile, background_slices.
  rewrite (tile_loop fuel fuel _ _ _ _ _ _ []).
  apply option_fmap_ext. intros sls. rewrite app_nil_l.
  by rewrite <- list_fmap_compose.
Qed.

Lemma trace_fuel_mono {V} (fuel fuel' : nat) (c : V → bool) (g : V → V) (v : V)
  (l : list V) :
  fuel ≤ fuel' → trace fuel c g v = Some l → trace fuel' c g v = Some l.
Proof.
  revert fuel' v l. induction fuel as [|fuel IH]; intros fuel' v l Hle;
    [done|].
  destruct fuel' as [|fuel']; [lia|]. cbn [trace].
  destruct (c v); [|done].
  destruct (trace fuel c g (g v)) as [l'|] eqn:Ht; [|done].
  intros [= <-]. by rewrite (IH fuel' (g v) l') by (done || lia).
Qed.

Lemma ring_of_fuel_mono (fuel fuel' : nat) (north south stepLat ln step : num N)
  (ring : list (Point (num N))) :
  fuel ≤ fuel' →
  ring_of N fuel north south stepLat ln step = Some ring →
  ring_of N fuel' north south stepLat ln step = Some ring.
Proof.
  intros Hle. unfold ring_of, top_edge, right_edge, bottom_edge, left_edge.
  destruct (trace fuel _ _ ln) as [top|] eqn:Htop; [|done].
  destruct (trace fuel _ _ north) as [right|] eqn:Hright; [|done].
  destruct (trace fuel _ _ (add N ln step)) as [bottom|] eqn:Hbottom; [|done].
  destruct (trace fuel _ _ south) as [left|] eqn:Hleft; [|done].
  rewrite (trace_fuel_mono _ _ _ _ _ _ Hle Htop).
  rewrite (trace_fuel_mono _ _ _ _ _ _ Hle Hright).
  rewrite (trace_fuel_mono _ _ _ _ _ _ Hle Hbottom).
  by rewrite (trace_fuel_mono _ _ _ _ _ _ Hle Hleft).
Qed.

Lemma slices_fuel_mono (inner inner' fuel fuel' : nat)
  (north east south stepLat ln step : num N)
  (sls : list (num N * num N * list (Point (num N)))) :
  inner ≤ inner' → fuel ≤ fuel' →
  slices N inner fuel north east south stepLat ln step = Some sls →
  slices N inner' fuel' north east south stepLat ln step = Some sls.
Proof.
  intros Hinner. revert fuel' ln step sls.
  induction fuel as [|fuel IH]; intros fuel' ln step sls Hle; [done|].
  destruct fuel' as [|fuel']; [lia|]. cbn [slices].
  destruct (ltb N ln east); [|done].
  destruct (ring_of N inner _ _ _ _ _) as [ring|] eqn:Hring; [|done].
  rewrite (ring_of_fuel_mono _ _ _ _ _ _ _ _ Hinner Hring).
  cbn [mbind option_bind].
  destruct (slices N inner fuel _ _ _ _ _ _) as [rest|] eqn:Hrest; [|done].
  by rewrite (IH fuel' _ _ rest) by (done || lia).
Qed.

Lemma background_slices_fuel_mono (fuel fuel' : nat)
  (north east south west : num N)
  (sls : list (num N * num N * list (Point (num N)))) :
  fuel ≤ fuel' →
  background_slices N fuel north east south west = Some sls →
  background_slices N fuel' north east south west = Some sls.
Proof. intros Hle. by apply slices_fuel_mono. Qed.

(** More fuel does not change a result. *)
Lemma getBackground_fuel_mono (fuel fuel' : nat) (north east south west : num N)
  (mp : list (Polygon (num N))) :
  fuel ≤ fuel' →
  getBackground N fuel north east south west = Some mp →
  getBackground N fuel' north east south west = Some mp.
Proof.
  intros Hle. rewrite !getBackground_slices.
  destruct (background_slices N fuel _ _ _ _) as [sls|] eqn:Hs; [|done].
  by rewrite (background_slices_fuel_mono _ _ _ _ _ _ _ Hle Hs).
Qed.

End TilerLoop.

(** * What any numbers give *)

Section TilerShape.
Variable N : Number.
Implicit Types (sl : num N * num N * list (Point (num N))).

(** A loop whose test fails at once. *)
Lemma getBackground_not_west_of_east (fuel : nat) (north east south west : num N) :
  ltb N (nudge_west N west) (nudge_east N east) = false →
  getBackground N (S fuel) north east south west = Some [].
Proof.
  intros Hlt. unfold getBackground, tile. cbn [for_loop]. by rewrite Hlt.
Qed.

(** [getBackground] is the slices of the nudged bounds, one polygon each. *)
Lemma getBackground_nudged (fuel : nat) (north east south west : num N) :
  getBackground N fuel north east south west
  = fmap (M := list) (λ sl, [Some (slice_ring N sl)]) <$>
      slices N fuel fuel (nudge_north N north) (nudge_east N east)
        (nudge_south N south)
        (initial_stepLat N (nudge_north N north) (nudge_south N south))
        (nudge_west N west)
        (initial_stepLong N (nudge_east N east) (nudge_west N west)).
Proof. by rewrite getBackground_slices. Qed.

(** A call that returns: its slices. *)
Lemma getBackground_inv (fuel : nat) (north east south west : num N)
  (mp : list (Polygon (num N))) :
  getBackground N fuel north east south west = Some mp →
  ∃ sls, background_slices N fuel north east south west = Some sls ∧
         mp = (λ sl, [Some (slice_ring N sl)]) <$> sls.
Proof.
  rewrite getBackground_slices.
  destruct (background_slices N fuel north east south west) as [sls|]; [|done].
  intros [= <-]. by exists sls.
Qed.

(** The values of a loop variable: the first is the start if it passes the
    test, the last passes the test and its successor does not. *)
Lemma trace_head {V} (fuel : nat) (c : V → bool) (g : V → V) (v : V)
  (vs : list V) :
  trace fuel c g v = Some vs → list.head vs = if c v then Some v else None.
Proof.
  destruct fuel as [|fuel]; [done|]. cbn [trace].
  destruct (c v); [|by intros [= <-]].
  destruct (trace fuel c g (g v)); [|done]. by intros [= <-].
Qed.

Lemma trace_nil {V} (fuel : nat) (c : V → bool) (g : V → V) (v : V) :
  trace fuel c g v = Some [] → c v = false.
Proof.
  destruct fuel as [|fuel]; [done|]. cbn [trace].
  destruct (c v); [|done]. by destruct (trace fuel c g (g v)).
Qed.

Lemma trace_last {V} (fuel : nat) (c : V → bool) (g : V → V) (v : V)
  (vs : list V) (x : V) :
  trace fuel c g v = Some vs → list.last vs = Some x →
  c x = true ∧ c (g x) = false.
Proof.
  revert v vs. induction fuel as [|fuel IH]; intros v vs; [done|].
  cbn [trace]. destruct (c v) eqn:Hc; [|by intros [= <-]].
  destruct (trace fuel c g (g v)) as [vs'|] eqn:Ht; [|done]. intros [= <-].
  destruct vs' as [|y vs'].
  - intros [= <-]. split; [done|]. exact (trace_nil _ _ _ _ Ht).
  - rewrite last_cons_cons. by apply (IH (g v)).
Qed.

Lemma head_fmap {A C} (f : A → C) (l : list A) :
  list.head (f <$> l) = f <$> list.head l.
Proof. by destruct l. Qed.

(** The edges a ring is made of, with their first and last points. *)
Lemma ring_of_edges (fuel : nat) (north south stepLat ln step : num N)
  (ring : list (Point (num N))) :
  ring_of N fuel north south stepLat ln step = Some ring →
  ∃ top right bottom left : list (Point (num N)),
    ring = top ++ right ++ bottom ++ left ∧
    top_edge N fuel north ln step = Some top ∧
    right_edge N fuel north south stepLat ln step = Some right ∧
    bottom_edge N fuel south ln step = Some bottom ∧
    left_edge N fuel north south stepLat ln = Some left ∧
    list.head top
    = (if leb N ln (add N ln step) then Some (pt ln north) else None) ∧
    list.head right
    = (if leb N south north then Some (pt (add N ln step) north) else None) ∧
    list.head bottom
    = (if leb N ln (add N ln step)
       then Some (pt (add N ln step) south) else None) ∧
    list.head left
    = (if leb N south north then Some (pt ln south) else None) ∧
    (∀ p, list.last right = Some p →
       ∃ lt, p = pt (add N ln step) lt ∧
             leb N south lt = true ∧ leb N south (sub N lt stepLat) = false) ∧
    (∀ p, list.last left = Some p →
       ∃ lt, p = pt ln lt ∧
             leb N lt north = true ∧ leb N (add N lt stepLat) north = false).
Proof.
  unfold ring_of, top_edge, right_edge, bottom_edge, left_edge.
  destruct (trace fuel _ _ ln) as [lls|] eqn:Htop; [|done].
  destruct (trace fuel _ _ north) as [lts|] eqn:Hright; [|done].
  destruct (trace fuel _ _ (add N ln step)) as [lls'|] eqn:Hbottom; [|done].
  destruct (trace fuel _ _ south) as [lts'|] eqn:Hleft; [|done].
  intros [= <-]. eexists _, _, _, _. do 5 (split; [reflexivity|]).
  cbn [fmap option_fmap option_map].
  rewrite !head_fmap, !fmap_last.
  rewrite (trace_head _ _ _ _ _ Htop), (trace_head _ _ _ _ _ Hright),
    (trace_head _ _ _ _ _ Hbottom), (trace_head _ _ _ _ _ Hleft).
  split; [by destruct (leb N ln (add N ln step))|].
  split; [by destruct (leb N south north)|].
  split; [by destruct (leb N ln (add N ln step))|].
  split; [by destruct (leb N south north)|].
  split; intros p Hp.
  - destruct (list.last lts) as [lt|] eqn:Hlast; [|done].
    injection Hp as <-. exists lt. split; [done|].
    apply (trace_last _ _ _ _ _ _ Hright Hlast).
  - destruct (list.last lts') as [lt|] eqn:Hlast; [|done].
    injection Hp as <-. exists lt. split; [done|].
    apply (trace_last _ _ _ _ _ _ Hleft Hlast).
Qed.

(** The slices of the outer loop from [ln] on, with [step] for [stepLong]. *)
Lemma slices_shape (inner : nat) (north east south stepLat : num N) (fuel : nat) :
  ∀ (ln step : num N) (sls : list (num N * num N * list (Point (num N)))),
  slices N inner fuel north east south stepLat ln step = Some sls →
  (sls = [] ↔ ltb N ln east = false) ∧
  (∀ sl, sls !! 0 = Some sl →
     slice_west N sl = ln ∧ slice_width N sl = clamp N east ln step) ∧
  (∀ i sl sl', sls !! i = Some sl → sls !! S i = Some sl' →
     slice_west N sl' = add N (slice_west N sl) (slice_width N sl) ∧
     slice_width N sl'
     = clamp N east (slice_west N sl') (slice_width N sl)) ∧
  Forall (λ sl,
            ltb N (slice_west N sl) east = true ∧
            ring_of N inner north south stepLat (slice_west N sl)
              (slice_width N sl)
            = Some (slice_ring N sl)) sls ∧
  (∀ sl, list.last sls = Some sl →
     ltb N (add N (slice_west N sl) (slice_width N sl)) east = false).
Proof.
  induction fuel as [|fuel IH]; intros ln step sls; [done|]. cbn [slices].
  destruct (ltb N ln east) eqn:Hlt.
  - destruct (ring_of N inner _ _ _ _ _) as [ring|] eqn:Hring; [|done].
    cbn [mbind option_bind].
    destruct (slices N inner fuel _ _ _ _ _ _) as [rest|] eqn:Hrest; [|done].
    intros [= <-].
    destruct (IH _ _ _ Hrest) as (Hnil & Hfirst & Hnext & Hall & Hlast).
    split; [done|]. split; [by intros sl [= <-]|]. split; [|split].
    + intros [|i] sl sl'; cbn [lookup list_lookup].
      * intros [= <-] Hsl'. destruct (Hfirst _ Hsl') as [Hw Hs].
        split; [done|]. by rewrite Hs, Hw.
      * apply Hnext.
    + by constructor.
    + intros sl. destruct rest as [|sl' rest].
      * intros [= <-]. by apply Hnil.
      * rewrite last_cons_cons. apply Hlast.
  - intros [= <-]. repeat split; done.
Qed.

Lemma ring_of_pairs (fuel : nat) (north south stepLat ln step : num N)
  (ring : list (Point (num N))) :
  ring_of N fuel north south stepLat ln step = Some ring → Forall is_pair ring.
Proof.
  unfold ring_of, top_edge, right_edge, bottom_edge, left_edge.
  destruct (trace fuel _ _ ln) as [top|]; [|done].
  destruct (trace fuel _ _ north) as [right|]; [|done].
  destruct (trace fuel _ _ (add N ln step)) as [bottom|]; [|done].
  destruct (trace fuel _ _ south) as [left|]; [|done].
  intros [= <-]. rewrite !Forall_app.
  repeat split; by apply Forall_fmap, Forall_true.
Qed.

(** On any numbers, NaN and infinities included: a call whose western bound
    is not below its eastern bound after the nudge -- the box is empty or
    inverted, or a bound is NaN -- returns the empty multipolygon at the
    first test of the outer loop, and a call that returns the empty
    multipolygon is such a call. *)
Theorem empty_iff_not_west_of_east (fuel : nat) (north east south west : num N) :
  (ltb N (nudge_west N west) (nudge_east N east) = false →
   getBackground N (S fuel) north east south west = Some []) ∧
  (∀ mp, getBackground N fuel north east south west = Some mp →
         (mp = [] ↔ ltb N (nudge_west N west) (nudge_east N east) = false)).
Proof.
  split; [apply getBackground_not_west_of_east|].
  intros mp Hmp. apply getBackground_inv in Hmp as (sls & Hsls & ->).
  apply slices_shape in Hsls as (Hnil & _). rewrite <- Hnil.
  split; [apply fmap_nil_inv|by intros ->].
Qed.

(** On any numbers, the multipolygon that [getBackground] returns is of the
    data model of the conversions -- one ring per polygon, every point a
    pair -- so converting it to geo points and back gives it back. *)
Theorem background_roundtrip (fuel : nat) (north east south west : num N)
  (mp : list (Polygon (num N))) :
  getBackground N fuel north east south west = Some mp →
  Forall polygon_ok mp ∧
  multiGeoPolygonToMultipolygon (multiPolygonToGeo mp) = mp.
Proof.
  intros Hmp. apply getBackground_inv in Hmp as (sls & Hsls & ->).
  apply slices_shape in Hsls as (_ & _ & _ & Hall & _).
  assert (Forall polygon_ok
            ((λ sl, [Some (slice_ring N sl)] : Polygon (num N)) <$> sls)) as Hok.
  { apply Forall_fmap. eapply Forall_impl; [|exact Hall]. intros sl [_ Hring].
    apply ring_of_pairs in Hring.
    split; [simpl; lia|]. apply Forall_singleton. by eexists. }
  split; [done|].
  rewrite multiPolygonToGeo_map, multiGeoPolygonToMultipolygon_map.
  rewrite <- list_fmap_compose. rewrite <- (list_fmap_id (_ <$> sls)) at 2.
  apply Forall_fmap_ext_1. eapply Forall_impl; [|exact Hok].
  intros polygon Hp. by apply convert_polygon_roundtrip.
Qed.

End TilerShape.

Section TilerShapeExamples.
Local Open Scope float_scope.

Lemma empty_iff_not_west_of_east_witness :
  (ltb B (nudge_west B 20) (nudge_east B 10) = false ∧
   getBackground B 1 45 10 (-45) 20 = Some []) ∧
  (ltb B (nudge_west B PrimFloat.nan) (nudge_east B 10) = false ∧
   getBackground B 1 45 10 (-45) PrimFloat.nan = Some []).
Proof.
  split; (split; [reflexivity|]).
  - apply (proj1 (empty_iff_not_west_of_east B 0 45 10 (-45) 20)).
    reflexivity.
  - apply (proj1 (empty_iff_not_west_of_east B 0 45 10 (-45) PrimFloat.nan)).
    reflexivity.
Defined.

Lemma background_roundtrip_witness :
  getBackground B 6 10 10 (-10) (-10) = Some [[Some small_ring]] ∧
  multiGeoPolygonToMultipolygon (multiPolygonToGeo [[Some small_ring]])
  = [[Some small_ring]].
Proof.
  assert (getBackground B 6 10 10 (-10) (-10) = Some [[Some small_ring]])
    as Hmp by by vm_compute.
  split; [exact Hmp|].
  exact (proj2 (background_roundtrip B 6 10 10 (-10) (-10) _ Hmp)).
Defined.

End TilerShapeExamples.

(** * Exact arithmetic *)

Module ExactFacts.
Local Open Scope Qc_scope.
#[local] Abbreviation Fin := Exact.Fin.
#[local] Abbreviation NaN := Exact.NaN.


Lemma Qc_leb_le (a b : Qc) : Exact.Qc_leb a b = true ↔ a ≤ b.
Proof. unfold Exact.Qc_leb, Qcle. apply Qle_bool_iff. Qed.

Lemma Qc_ltb_lt (a b : Qc) : Exact.Qc_ltb a b = true ↔ a < b.
Proof.
  unfold Exact.Qc_ltb, Qclt. rewrite negb_true_iff, <- not_true_iff_false, Qle_bool_iff.
  split; [apply Qnot_le_lt | apply Qlt_not_le].
Qed.

Lemma Qc_eqb_eq (a b : Qc) : Exact.Qc_eqb a b = true ↔ a = b.
Proof.
  unfold Exact.Qc_eqb. rewrite Qeq_bool_iff. split; [apply Qc_is_canon|by intros ->].
Qed.

Lemma Qc_leb_nle (a b : Qc) : Exact.Qc_leb a b = false ↔ b < a.
Proof.
  rewrite <- not_true_iff_false, Qc_leb_le. split; [apply Qcnot_le_lt|apply Qclt_not_le].
Qed.

Lemma Qc_ltb_nlt (a b : Qc) : Exact.Qc_ltb a b = false ↔ b ≤ a.
Proof.
  rewrite <- not_true_iff_false, Qc_ltb_lt. split; [apply Qcnot_lt_le|apply Qcle_not_lt].
Qed.

Lemma Qc_eq_Qeq (a b : Qc) : a = b ↔ (a == b)%Q.
Proof. split; [by intros ->|apply Qc_is_canon]. Qed.

(** Statements on [Qc] read on [Q], where [lra] decides them. *)
Ltac qc_to_q :=
  repeat match goal with
  | H : @eq Qc _ _ |- _ => apply Qc_eq_Qeq in H
  | H : ¬ @eq Qc _ _ |- _ => rewrite Qc_eq_Qeq in H
  | |- @eq Qc _ _ => apply Qc_eq_Qeq
  | |- ¬ @eq Qc _ _ => rewrite Qc_eq_Qeq
  end;
  unfold Qcle, Qclt, Qcminus, Qcdiv, Qcplus, Qcmult, Qcopp, Qcinv, Q2Qc in *;
  cbn [this] in *;
  repeat match goal with
  | H : context [Qred ?q] |- _ => rewrite (Qred_correct q) in H
  | |- context [Qred ?q] => rewrite (Qred_correct q)
  end;
  unfold Qdiv in *;
  repeat match goal with
  | H : context [Qinv (Z.pos ?p # 1)] |- _ =>
      change (Qinv (Z.pos p # 1)) with (1 # p)%Q in H
  | |- context [Qinv (Z.pos ?p # 1)] =>
      change (Qinv (Z.pos p # 1)) with (1 # p)%Q
  end.

Ltac qc_lra := qc_to_q; lra.

(** The operations of [Exact.number], named. *)
Ltac exact_ops :=
  cbn [num lit add sub div ceil min ltb leb eqb Exact.number] in *.

Lemma Qc_of_nat_0 : Qc_of_nat 0 = 0.
Proof. by apply Qc_is_canon. Qed.

Lemma Qc_of_nat_S (n : nat) : Qc_of_nat (S n) = Qc_of_nat n + 1.
Proof.
  unfold Qc_of_nat. qc_to_q. rewrite Nat2Z.inj_succ. unfold Z.succ. rewrite inject_Z_plus.
  by change (inject_Z 1) with 1%Q.
Qed.

Lemma Qc_of_nat_nonneg (n : nat) : 0 ≤ Qc_of_nat n.
Proof.
  unfold Qc_of_nat. qc_to_q. change 0%Q with (inject_Z 0).
  rewrite <- Zle_Qle. lia.
Qed.

Lemma Qc_of_nat_mult_nonneg (n : nat) (d : Qc) : 0 ≤ d → 0 ≤ Qc_of_nat n * d.
Proof. intros. apply Qcmult_nonneg_nonneg; [apply Qc_of_nat_nonneg|done]. Qed.

(** *** The operations on finite numbers *)

Lemma sub_Fin (a b : Qc) : Exact.sub (Fin a) (Fin b) = Fin (a - b).
Proof.
  unfold Exact.sub, Exact.neg. destruct (Exact.Qc_eqb b 0) eqn:Hb; simpl.
  - apply Qc_eqb_eq in Hb as ->. f_equal. qc_lra.
  - done.
Qed.

Lemma div_Fin_pos (a b : Qc) :
  0 < a → 0 < b → Exact.div (Fin a) (Fin b) = Fin (a / b).
Proof.
  intros Ha Hb. unfold Exact.div. cbn [Exact.is_inf Exact.is_zero Exact.val].
  assert (Exact.Qc_eqb a 0 = false) as ->.
  { apply not_true_iff_false. rewrite Qc_eqb_eq. intros ->. by apply (Qclt_not_eq 0 0). }
  assert (Exact.Qc_eqb b 0 = false) as ->.
  { apply not_true_iff_false. rewrite Qc_eqb_eq. intros ->. by apply (Qclt_not_eq 0 0). }
  done.
Qed.

Lemma Qceiling_pos (q : Qc) : 0 < q → (1 ≤ Qceiling q)%Z.
Proof.
  intros Hq. pose proof (Qle_ceiling q) as Hc.
  assert (0 < inject_Z (Qceiling q))%Q as H0 by qc_lra.
  change 0%Q with (inject_Z 0) in H0. rewrite <- Zlt_Qlt in H0. lia.
Qed.

Lemma ceil_Fin_pos (q : Qc) :
  0 < q → Exact.ceil (Fin q) = Fin (Qc_of_nat (Z.to_nat (Qceiling q))).
Proof.
  intros Hq. pose proof (Qceiling_pos q Hq) as Hc. unfold Exact.ceil.
  assert ((Qceiling q =? 0)%Z = false) as -> by lia. simpl.
  unfold Qc_of_nat. by rewrite Z2Nat.id by lia.
Qed.

(** *** Loops that count up or down by a constant *)

Lemma progression_length (lo d : Qc) (n : nat) : length (progression lo d n) = n.
Proof. revert lo. induction n as [|n IH]; intros lo; simpl; [done|by rewrite IH]. Qed.

Lemma progression_lookup (lo d : Qc) (n i : nat) :
  (i < n)%nat → progression lo d n !! i = Some (Fin (lo + Qc_of_nat i * d)).
Proof.
  revert lo i. induction n as [|n IH]; intros lo i Hi; [lia|].
  destruct i as [|i]; simpl.
  - do 2 f_equal. rewrite Qc_of_nat_0. qc_lra.
  - rewrite IH by lia. do 2 f_equal. rewrite Qc_of_nat_S. qc_lra.
Qed.

Lemma trace_up (hi d : Qc) (n : nat) (lo : Qc) (fuel : nat) :
  0 ≤ d → (n < fuel)%nat →
  (n ≠ 0%nat → lo + Qc_of_nat (n - 1) * d ≤ hi) →
  hi < lo + Qc_of_nat n * d →
  trace fuel (λ x, Exact.leb x (Fin hi)) (λ x, Exact.add x (Fin d)) (Fin lo)
  = Some (progression lo d n).
Proof.
  intros Hd. revert lo fuel. induction n as [|n IH]; intros lo fuel Hfuel Hin Hout;
    (destruct fuel as [|fuel]; [lia|]); cbn [trace progression Exact.leb Exact.val].
  - rewrite Qc_of_nat_0 in Hout.
    assert (Exact.Qc_leb lo hi = false) as -> by (apply Qc_leb_nle; qc_lra). done.
  - specialize (Hin ltac:(lia)). replace (S n - 1)%nat with n in Hin by lia.
    pose proof (Qc_of_nat_mult_nonneg n d Hd) as Hnd.
    assert (Exact.Qc_leb lo hi = true) as -> by (apply Qc_leb_le; qc_lra).
    cbn [Exact.add]. rewrite IH; [done|lia| |].
    + intros Hn. destruct n as [|n]; [done|].
      replace (S n - 1)%nat with n by lia. rewrite Qc_of_nat_S in Hin. qc_lra.
    + rewrite Qc_of_nat_S in Hout. qc_lra.
Qed.

Lemma trace_down (lo d : Qc) (n : nat) (hi : Qc) (fuel : nat) :
  0 ≤ d → (n < fuel)%nat →
  (n ≠ 0%nat → lo ≤ hi - Qc_of_nat (n - 1) * d) →
  hi - Qc_of_nat n * d < lo →
  trace fuel (λ x, Exact.leb (Fin lo) x) (λ x, Exact.sub x (Fin d)) (Fin hi)
  = Some (progression hi (- d) n).
Proof.
  intros Hd. revert hi fuel. induction n as [|n IH]; intros hi fuel Hfuel Hin Hout;
    (destruct fuel as [|fuel]; [lia|]); cbn [trace progression Exact.leb Exact.val].
  - rewrite Qc_of_nat_0 in Hout.
    assert (Exact.Qc_leb lo hi = false) as -> by (apply Qc_leb_nle; qc_lra). done.
  - specialize (Hin ltac:(lia)). replace (S n - 1)%nat with n in Hin by lia.
    pose proof (Qc_of_nat_mult_nonneg n d Hd) as Hnd.
    assert (Exact.Qc_leb lo hi = true) as -> by (apply Qc_leb_le; qc_lra).
    rewrite sub_Fin. change (hi - d) with (hi + - d). rewrite IH; [done|lia| |].
    + intros Hn. destruct n as [|n]; [done|].
      replace (S n - 1)%nat with n by lia. rewrite Qc_of_nat_S in Hin. qc_lra.
    + rewrite Qc_of_nat_S in Hout. qc_lra.
Qed.

Lemma Qc_of_nat_to_nat (z : Z) : (0 ≤ z)%Z → (Qc_of_nat (Z.to_nat z) == inject_Z z)%Q.
Proof. intros Hz. unfold Qc_of_nat. qc_to_q. by rewrite Z2Nat.id. Qed.

(** [hi - lo] is at most 90 times the number of its sections, and more than
    90 times one less. *)
Lemma sections_bounds (hi lo : Qc) :
  lo < hi →
  (1 ≤ sections hi lo)%nat ∧
  hi - lo ≤ Q2Qc 90 * Qc_of_nat (sections hi lo) ∧
  Q2Qc 90 * (Qc_of_nat (sections hi lo) - 1) < hi - lo.
Proof.
  intros Hlt. unfold sections.
  set (q := ((this hi - this lo) / 90)%Q).
  assert (0 < q)%Q as Hq by (unfold q; qc_lra).
  assert (q == (this hi - this lo) / 90)%Q as Hqv by reflexivity.
  clearbody q.
  pose proof (Qle_ceiling q) as Hle. pose proof (Qceiling_lt q) as Hgt.
  assert (1 ≤ Qceiling q)%Z as Hc.
  { assert (0 < inject_Z (Qceiling q))%Q as H0 by lra.
    change 0%Q with (inject_Z 0) in H0. rewrite <- Zlt_Qlt in H0. lia. }
  pose proof (Qc_of_nat_to_nat (Qceiling q) ltac:(lia)) as Hn.
  split; [lia|].
  unfold Z.sub in Hgt. rewrite inject_Z_plus in Hgt.
  change (inject_Z (Z.opp 1)) with (-1 # 1)%Q in Hgt.
  qc_to_q. rewrite Hn. clear Hn Hc.
  generalize dependent (inject_Z (Qceiling q)). intros c Hle Hgt.
  split; lra.
Qed.

Lemma Qc_of_nat_pos (n : nat) : (1 ≤ n)%nat → 0 < Qc_of_nat n.
Proof.
  intros Hn. destruct n as [|n]; [lia|]. rewrite Qc_of_nat_S.
  pose proof (Qc_of_nat_nonneg n). qc_lra.
Qed.

Lemma span_step_mult (hi lo : Qc) :
  lo < hi → Qc_of_nat (sections hi lo) * span_step hi lo = hi - lo.
Proof.
  intros Hlt. destruct (sections_bounds hi lo Hlt) as (Hn & _ & _).
  pose proof (Qc_of_nat_pos _ Hn) as Hpos. unfold span_step.
  apply Qcmult_div_r. intros H0. rewrite H0 in Hpos.
  by apply (Qclt_not_eq 0 0).
Qed.

Lemma span_step_pos (hi lo : Qc) : lo < hi → 0 < span_step hi lo.
Proof.
  intros Hlt. destruct (sections_bounds hi lo Hlt) as (Hn & _ & _).
  pose proof (Qc_of_nat_pos _ Hn) as Hpos.
  pose proof (span_step_mult hi lo Hlt) as Hmult.
  apply Qcnot_le_lt. intros Hle.
  assert (Qc_of_nat (sections hi lo) * span_step hi lo ≤ 0) as Hprod.
  { rewrite <- (Qcmult_0_r (Qc_of_nat (sections hi lo))).
    apply Qcmult_le_mono_nonneg_l; [by apply Qclt_le_weak|done]. }
  rewrite Hmult in Hprod. qc_lra.
Qed.

Lemma span_step_le_90 (hi lo : Qc) : lo < hi → span_step hi lo ≤ Q2Qc 90.
Proof.
  intros Hlt. destruct (sections_bounds hi lo Hlt) as (Hn & Hle & _).
  pose proof (Qc_of_nat_pos _ Hn) as Hpos.
  rewrite <- (span_step_mult hi lo Hlt) in Hle.
  rewrite (Qcmult_comm (Q2Qc 90)) in Hle.
  by apply (Qcmult_le_mono_pos_l _ _ _ Hpos).
Qed.

(** *** [stepLat] and [stepLong] on a span that is not empty *)

Lemma ceil_span (hi lo : Qc) :
  lo < hi →
  Exact.ceil (Exact.div (Exact.sub (Fin hi) (Fin lo)) (Exact.lit 90))
  = Fin (Qc_of_nat (sections hi lo)).
Proof.
  intros Hlt. rewrite sub_Fin. unfold Exact.lit.
  rewrite div_Fin_pos by qc_lra. rewrite ceil_Fin_pos by qc_lra.
  unfold sections. do 3 f_equal. apply Qceiling_comp. qc_to_q. reflexivity.
Qed.

Lemma initial_stepLat_span (north south : Qc) :
  south < north →
  initial_stepLat X (Fin north) (Fin south) = Fin (span_step north south).
Proof.
  intros Hlt. unfold initial_stepLat. exact_ops.
  rewrite ceil_span by done. rewrite sub_Fin.
  destruct (sections_bounds north south Hlt) as (Hn & _ & _).
  rewrite div_Fin_pos; [done|qc_lra|by apply Qc_of_nat_pos].
Qed.

Lemma initial_stepLong_span (east west : Qc) :
  west < east →
  initial_stepLong X (Fin east) (Fin west) = Fin (span_step east west).
Proof.
  intros Hlt. unfold initial_stepLong.
  exact_ops.
  rewrite ceil_span by done. rewrite sub_Fin.
  destruct (sections_bounds east west Hlt) as (Hn & _ & _).
  rewrite div_Fin_pos; [|qc_lra|by apply Qc_of_nat_pos].
  fold (span_step east west). pose proof (span_step_le_90 east west Hlt) as Hle.
  unfold Exact.min, Exact.lit. cbn [Exact.ltb Exact.val Exact.sign].
  destruct (Exact.Qc_ltb (Q2Qc 90) (span_step east west)) eqn:H1.
  { apply Qc_ltb_lt in H1. by apply Qclt_not_le in H1. }
  destruct (Exact.Qc_ltb (span_step east west) (Q2Qc 90)) eqn:H2; [done|].
  destruct (Exact.Qc_ltb (Q2Qc 90) _) eqn:H3; [|done].
  vm_compute in H3. discriminate.
Qed.

(** *** The four edges *)

Lemma floor_bounds (step : Qc) :
  0 ≤ step →
  Qc_of_nat (Z.to_nat (Qfloor (this step / 5)%Q)) * Q2Qc 5 ≤ step ∧
  step < (Qc_of_nat (Z.to_nat (Qfloor (this step / 5)%Q)) + 1) * Q2Qc 5.
Proof.
  intros Hstep.
  set (q := (this step / 5)%Q).
  assert (q == this step / 5)%Q as Hqv by reflexivity.
  assert (0 <= q)%Q as Hq by (unfold q; qc_lra).
  clearbody q.
  pose proof (Qfloor_le q) as Hle. pose proof (Qlt_floor q) as Hgt.
  assert (0 ≤ Qfloor q)%Z as Hf.
  { pose proof (Qfloor_resp_le 0 q Hq) as H0. by vm_compute (Qfloor 0) in H0. }
  pose proof (Qc_of_nat_to_nat (Qfloor q) Hf) as Hn.
  rewrite inject_Z_plus in Hgt. change (inject_Z 1) with 1%Q in Hgt.
  qc_to_q. rewrite Hn. clear Hn Hf.
  generalize dependent (inject_Z (Qfloor q)). intros c Hle Hgt.
  split; lra.
Qed.

Lemma top_edge_exact (fuel : nat) (north ln step : Qc) :
  0 ≤ step → (edge_points step < fuel)%nat →
  top_edge X fuel (Fin north) (Fin ln) (Fin step)
  = Some ((λ ll, pt ll (Fin north))
            <$> progression ln (Q2Qc 5) (edge_points step)).
Proof.
  intros Hstep Hfuel. destruct (floor_bounds step Hstep) as [Hlo Hhi].
  unfold top_edge. exact_ops. unfold Exact.lit. cbn [Exact.add].
  rewrite (trace_up (ln + step) (Q2Qc 5) (edge_points step)); [done| |done| |].
  - qc_lra.
  - intros _. unfold edge_points. cbn [Nat.sub]. rewrite Nat.sub_0_r. qc_lra.
  - unfold edge_points. rewrite Qc_of_nat_S. qc_lra.
Qed.

Lemma bottom_edge_exact (fuel : nat) (south ln step : Qc) :
  0 ≤ step → (edge_points step < fuel)%nat →
  bottom_edge X fuel (Fin south) (Fin ln) (Fin step)
  = Some ((λ ll, pt ll (Fin south))
            <$> progression (ln + step) (- Q2Qc 5) (edge_points step)).
Proof.
  intros Hstep Hfuel. destruct (floor_bounds step Hstep) as [Hlo Hhi].
  unfold bottom_edge. exact_ops. unfold Exact.lit. cbn [Exact.add].
  rewrite (trace_down ln (Q2Qc 5) (edge_points step)); [done| |done| |].
  - qc_lra.
  - intros _. unfold edge_points. cbn [Nat.sub]. rewrite Nat.sub_0_r. qc_lra.
  - unfold edge_points. rewrite Qc_of_nat_S. qc_lra.
Qed.

Lemma initial_stepLat_eq (a : Qc) :
  initial_stepLat X (Fin a) (Fin a) = NaN.
Proof.
  unfold initial_stepLat. exact_ops. rewrite sub_Fin.
  replace (a - a) with (Q2Qc 0) by qc_lra. reflexivity.
Qed.

Lemma initial_stepLong_eq (a : Qc) :
  initial_stepLong X (Fin a) (Fin a) = NaN.
Proof.
  unfold initial_stepLong. exact_ops. rewrite sub_Fin.
  replace (a - a) with (Q2Qc 0) by qc_lra. reflexivity.
Qed.

(** The three ways north and south can stand. *)
Lemma lat_cases (north south : Qc) :
  (south < north ∧ lat_points north south = S (sections north south)) ∨
  (north = south ∧ lat_points north south = 1%nat) ∨
  (north < south ∧ lat_points north south = 0%nat).
Proof.
  unfold lat_points.
  destruct (Exact.Qc_ltb south north) eqn:Hlt.
  { left. by apply Qc_ltb_lt in Hlt. }
  destruct (Exact.Qc_eqb north south) eqn:Heq.
  { right; left. by apply Qc_eqb_eq in Heq. }
  right; right. split; [|done].
  apply Qc_ltb_nlt in Hlt. apply not_true_iff_false in Heq.
  rewrite Qc_eqb_eq in Heq. apply Qcnot_le_lt. intros Hle.
  apply Heq. by apply Qcle_antisym.
Qed.

Lemma right_edge_exact (fuel : nat) (north south ln step : Qc) :
  (lat_points north south < fuel)%nat →
  right_edge X fuel (Fin north) (Fin south)
    (initial_stepLat X (Fin north) (Fin south))
    (Fin ln) (Fin step)
  = Some ((λ lt, pt (Fin (ln + step)) lt)
            <$> progression north (- span_step north south)
                  (lat_points north south)).
Proof.
  intros Hfuel. unfold right_edge. exact_ops. cbn [Exact.add].
  destruct (lat_cases north south) as [[Hlt Hn]|[[-> Hn]|[Hlt Hn]]];
    rewrite Hn in *.
  - rewrite initial_stepLat_span by done.
    pose proof (span_step_pos north south Hlt) as Hpos.
    pose proof (span_step_mult north south Hlt) as Hmult.
    rewrite (trace_down south (span_step north south) (S (sections north south)));
      [done| |done| |].
    + by apply Qclt_le_weak.
    + intros _. cbn [Nat.sub]. rewrite Nat.sub_0_r. qc_lra.
    + rewrite Qc_of_nat_S. qc_lra.
  - rewrite initial_stepLat_eq.
    destruct fuel as [|[|fuel]]; [lia|lia|]. cbn [trace Exact.leb Exact.val].
    assert (Exact.Qc_leb south south = true) as ->
      by (apply Qc_leb_le, Qcle_refl).
    reflexivity.
  - destruct fuel as [|fuel]; [lia|]. cbn [trace Exact.leb Exact.val].
    assert (Exact.Qc_leb south north = false) as -> by by apply Qc_leb_nle.
    reflexivity.
Qed.

Lemma left_edge_exact (fuel : nat) (north south ln : Qc) :
  (lat_points north south < fuel)%nat →
  left_edge X fuel (Fin north) (Fin south)
    (initial_stepLat X (Fin north) (Fin south)) (Fin ln)
  = Some ((λ lt, pt (Fin ln) lt)
            <$> progression south (span_step north south)
                  (lat_points north south)).
Proof.
  intros Hfuel. unfold left_edge. exact_ops.
  destruct (lat_cases north south) as [[Hlt Hn]|[[-> Hn]|[Hlt Hn]]];
    rewrite Hn in *.
  - rewrite initial_stepLat_span by done.
    pose proof (span_step_pos north south Hlt) as Hpos.
    pose proof (span_step_mult north south Hlt) as Hmult.
    rewrite (trace_up north (span_step north south) (S (sections north south)));
      [done| |done| |].
    + by apply Qclt_le_weak.
    + intros _. cbn [Nat.sub]. rewrite Nat.sub_0_r. qc_lra.
    + rewrite Qc_of_nat_S. qc_lra.
  - rewrite initial_stepLat_eq.
    destruct fuel as [|[|fuel]]; [lia|lia|]. cbn [trace Exact.leb Exact.val].
    assert (Exact.Qc_leb south south = true) as ->
      by (apply Qc_leb_le, Qcle_refl).
    reflexivity.
  - destruct fuel as [|fuel]; [lia|]. cbn [trace Exact.leb Exact.val].
    assert (Exact.Qc_leb south north = false) as -> by by apply Qc_leb_nle.
    reflexivity.
Qed.

(** The ring of a slice is the ring computed without rounding. *)
Lemma ring_of_exact (fuel : nat) (north south ln step : Qc) :
  0 ≤ step →
  (edge_points step < fuel)%nat → (lat_points north south < fuel)%nat →
  ring_of X fuel (Fin north) (Fin south)
    (initial_stepLat X (Fin north) (Fin south))
    (Fin ln) (Fin step)
  = Some (exact_ring north south ln step).
Proof.
  intros Hstep Hedge Hlat. unfold ring_of.
  rewrite top_edge_exact, right_edge_exact, bottom_edge_exact, left_edge_exact
    by done.
  reflexivity.
Qed.

(** *** The slices *)

(** From the [k]th western bound on, with [j] sections left to the east. *)
Lemma slices_exact (inner : nat) (north east south west step : Qc) (j : nat) :
  ∀ (k fuel : nat),
  0 < step →
  (Qc_of_nat k + Qc_of_nat j) * step = east - west →
  (j < fuel)%nat →
  (edge_points step < inner)%nat → (lat_points north south < inner)%nat →
  slices X inner fuel (Fin north) (Fin east) (Fin south)
    (initial_stepLat X (Fin north) (Fin south))
    (Fin (west + Qc_of_nat k * step)) (Fin step)
  = Some ((λ i,
             let ln := west + Qc_of_nat i * step in
             (Fin ln, Fin step, exact_ring north south ln step))
            <$> seq k j).
Proof.
  induction j as [|j IH]; intros k fuel Hstep Hsum Hfuel Hedge Hlat;
    (destruct fuel as [|fuel]; [lia|]); cbn [slices].
  - exact_ops. cbn [Exact.ltb Exact.val]. rewrite Qc_of_nat_0 in Hsum.
    assert (Exact.Qc_ltb (west + Qc_of_nat k * step) east = false) as ->
      by (apply Qc_ltb_nlt; qc_lra).
    done.
  - exact_ops. cbn [Exact.ltb Exact.val]. rewrite Qc_of_nat_S in Hsum.
    pose proof (Qc_of_nat_mult_nonneg j step (Qclt_le_weak _ _ Hstep)) as Hj.
    assert (Exact.Qc_ltb (west + Qc_of_nat k * step) east = true) as ->
      by (apply Qc_ltb_lt; qc_lra).
    unfold clamp. exact_ops. cbn [Exact.add Exact.ltb Exact.val].
    assert (Exact.Qc_ltb east (west + Qc_of_nat k * step + step) = false) as ->
      by (apply Qc_ltb_nlt; qc_lra).
    rewrite ring_of_exact by (done || by apply Qclt_le_weak).
    cbn [mbind option_bind].
    replace (west + Qc_of_nat k * step + step)
      with (west + Qc_of_nat (S k) * step) by (rewrite Qc_of_nat_S; qc_lra).
    rewrite IH; [done|done| |lia|done|done].
    rewrite Qc_of_nat_S. qc_lra.
Qed.

Lemma nudge_finite (q : Qc) :
  (∃ w, nudge_west X (Fin q) = Fin w) ∧
  (∃ s, nudge_south X (Fin q) = Fin s) ∧
  (∃ n, nudge_north X (Fin q) = Fin n) ∧
  (∃ e, nudge_east X (Fin q) = Fin e).
Proof.
  unfold nudge_west, nudge_south, nudge_north, nudge_east. exact_ops.
  unfold Exact.lit. repeat split;
    match goal with |- context [Exact.eqb ?a ?b] => destruct (Exact.eqb a b) end;
    eauto.
Qed.

(** A box with east of west after the nudge: the slices are the ones
    computed without rounding, whatever the fuel above these bounds. *)
Lemma background_slices_exact (fuel : nat) (north east south west n e s w : Qc) :
  nudge_north X (Fin north) = Fin n →
  nudge_east X (Fin east) = Fin e →
  nudge_south X (Fin south) = Fin s →
  nudge_west X (Fin west) = Fin w →
  w < e →
  (sections e w < fuel)%nat → (edge_points (span_step e w) < fuel)%nat →
  (lat_points n s < fuel)%nat →
  background_slices X fuel (Fin north) (Fin east)
    (Fin south) (Fin west)
  = Some (exact_slices n e s w).
Proof.
  intros Hn He Hs Hw Hlt Hfuel Hedge Hlat.
  unfold background_slices. rewrite Hn, He, Hs, Hw.
  rewrite initial_stepLong_span by done.
  pose proof (slices_exact fuel n e s w (span_step e w) (sections e w) 0 fuel)
    as Hslices.
  rewrite Qc_of_nat_0 in Hslices.
  replace (w + 0 * span_step e w) with w in Hslices by qc_lra.
  rewrite Hslices; [done|by apply span_step_pos| |done..].
  rewrite <- (span_step_mult e w Hlt). qc_lra.
Qed.

(** *** The shape of the exact slices and rings *)

Lemma progression_head (lo d : Qc) (n : nat) :
  list.head (progression lo d (S n)) = Some (Fin lo).
Proof. done. Qed.

Lemma progression_last (lo d : Qc) (n : nat) :
  list.last (progression lo d (S n)) = Some (Fin (lo + Qc_of_nat n * d)).
Proof.
  rewrite last_lookup, progression_length. cbn [pred].
  apply progression_lookup. lia.
Qed.

Lemma exact_slices_length (n e s w : Qc) :
  length (exact_slices n e s w) = sections e w.
Proof. unfold exact_slices. by rewrite length_fmap, length_seq. Qed.

Lemma exact_slices_lookup (n e s w : Qc) (k : nat)
  (sl : Exact.xnum * Exact.xnum * list (list (option Exact.xnum))) :
  exact_slices n e s w !! k = Some sl →
  (k < sections e w)%nat ∧
  sl = (Fin (w + Qc_of_nat k * span_step e w),
        Fin (span_step e w),
        exact_ring n s (w + Qc_of_nat k * span_step e w) (span_step e w)).
Proof.
  unfold exact_slices. rewrite list_lookup_fmap.
  destruct (seq 0 (sections e w) !! k) as [i|] eqn:Hi; [|done].
  apply lookup_seq in Hi as [-> Hk]. intros [= <-]. done.
Qed.

Lemma exact_ring_head (north south ln step : Qc) :
  list.head (exact_ring north south ln step)
  = Some (pt (Fin ln) (Fin north)).
Proof. done. Qed.

(** With north above south the left edge ends where the top edge starts. *)
Lemma exact_ring_last (north south ln step : Qc) :
  south < north →
  list.last (exact_ring north south ln step)
  = Some (pt (Fin ln) (Fin north)).
Proof.
  intros Hlt. unfold exact_ring. rewrite !app_assoc.
  destruct (lat_cases north south) as [[_ Hn]|[[-> Hn]|[Hgt Hn]]].
  - rewrite Hn. rewrite last_app, fmap_last, progression_last. cbn.
    do 3 f_equal. pose proof (span_step_mult north south Hlt). qc_lra.
  - by apply Qclt_not_eq in Hlt.
  - exfalso. apply (Qclt_not_le _ _ Hlt). by apply Qclt_le_weak.
Qed.

(** A box of finite bounds, east of west after the nudge, is tiled as
    without rounding. *)
Lemma exact_tiling (north east south west : Qc) :
  ltb X (nudge_west X (Fin west)) (nudge_east X (Fin east)) = true →
  ∃ n e s w : Qc,
    nudge_north X (Fin north) = Fin n ∧
    nudge_east X (Fin east) = Fin e ∧
    nudge_south X (Fin south) = Fin s ∧
    nudge_west X (Fin west) = Fin w ∧
    w < e ∧
    ∀ fuel : nat, (enough_fuel n e s w ≤ fuel)%nat →
      background_slices X fuel (Fin north) (Fin east)
        (Fin south) (Fin west)
      = Some (exact_slices n e s w) ∧
      getBackground X fuel (Fin north) (Fin east)
        (Fin south) (Fin west)
      = Some ((λ sl, polygon_of X (slice_ring X sl)) <$> exact_slices n e s w).
Proof.
  destruct (nudge_finite north) as (_ & _ & [n Hn] & _).
  destruct (nudge_finite east) as (_ & _ & _ & [e He]).
  destruct (nudge_finite south) as (_ & [s Hs] & _).
  destruct (nudge_finite west) as ([w Hw] & _).
  rewrite Hw, He. exact_ops. cbn [Exact.ltb Exact.val]. intros Hlt.
  apply Qc_ltb_lt in Hlt. exists n, e, s, w. repeat split; try done.
  - unfold enough_fuel in *. apply background_slices_exact; (done || lia).
  - rewrite getBackground_slices.
    unfold enough_fuel in *.
    rewrite (background_slices_exact fuel north east south west n e s w);
      (done || lia).
Qed.


Lemma exact_slices_widths (n e s w : Qc) :
  Forall (λ sl, slice_width X sl = Fin (span_step e w))
    (exact_slices n e s w).
Proof.
  apply Forall_lookup. intros k sl Hk.
  by apply exact_slices_lookup in Hk as [_ ->].
Qed.

(** The western bounds: the first is [w], each next one is the one before
    plus the width, the last plus the width is [e], and they increase. *)
Lemma exact_slices_first (n e s w : Qc) (sl : Exact.xnum * Exact.xnum * _) :
  exact_slices n e s w !! 0%nat = Some sl → slice_west X sl = Fin w.
Proof.
  intros Hk. apply exact_slices_lookup in Hk as [_ ->].
  unfold slice_west. cbn. f_equal. rewrite Qc_of_nat_0. qc_lra.
Qed.

Lemma exact_slices_next (n e s w : Qc) (k : nat)
  (sl sl' : Exact.xnum * Exact.xnum * _) :
  exact_slices n e s w !! k = Some sl → exact_slices n e s w !! S k = Some sl' →
  slice_west X sl' = add X (slice_west X sl) (slice_width X sl).
Proof.
  intros Hk Hk'. apply exact_slices_lookup in Hk as [_ ->].
  apply exact_slices_lookup in Hk' as [_ ->].
  unfold slice_west, slice_width. cbn. f_equal. rewrite Qc_of_nat_S. qc_lra.
Qed.

Lemma exact_slices_last (n e s w : Qc) (sl : Exact.xnum * Exact.xnum * _) :
  w < e →
  list.last (exact_slices n e s w) = Some sl →
  add X (slice_west X sl) (slice_width X sl) = Fin e.
Proof.
  intros Hlt. rewrite last_lookup, exact_slices_length. intros Hk.
  apply exact_slices_lookup in Hk as [_ ->].
  destruct (sections_bounds e w Hlt) as (Hn & _ & _).
  pose proof (span_step_mult e w Hlt) as Hmult.
  destruct (sections e w) as [|m]; [lia|]. cbn [pred].
  unfold slice_west, slice_width. cbn. f_equal.
  rewrite Qc_of_nat_S in Hmult. qc_lra.
Qed.


End ExactFacts.

(** * A span of no width *)

Section EmptySpan.
Variable N : Number.

Lemma getBackground_empty_span (fuel : nat) (north east south west : num N) :
  eq_not_lt N →
  eqb N east west = true →
  eqb N west (lit N (-180)) = false → eqb N east (lit N 180) = false →
  getBackground N (S fuel) north east south west = Some [].
Proof.
  intros Hlaw Heq Hw He. unfold getBackground, tile.
  unfold nudge_west, nudge_east. rewrite Hw, He.
  cbn [for_loop]. by rewrite (Hlaw east west Heq).
Qed.

End EmptySpan.

Lemma SFcompare_Eq_sym (a b : spec_float) :
  SFcompare a b = Some Eq → SFcompare b a = Some Eq.
Proof.
  destruct a as [sa|sa| |sa ma ea], b as [sb|sb| |sb mb eb]; simpl;
    try done; try (by destruct sa); try (by destruct sb);
    try (by destruct sa, sb).
  destruct sa, sb; try done.
  - destruct (ea ?= eb)%Z eqn:He; try done.
    apply Z.compare_eq in He as ->. rewrite Z.compare_refl.
    destruct (Pos.compare_cont Eq ma mb) eqn:Hm; try done.
    apply Pcompare_Eq_eq in Hm as ->. by rewrite Pcompare_refl.
  - destruct (ea ?= eb)%Z eqn:He; try done.
    apply Z.compare_eq in He as ->. rewrite Z.compare_refl.
    destruct (Pos.compare_cont Eq ma mb) eqn:Hm; try done.
    apply Pcompare_Eq_eq in Hm as ->. by rewrite Pcompare_refl.
Qed.

Lemma binary64_eq_not_lt : eq_not_lt Binary64.number.
Proof.
  intros a b. cbn [eqb ltb Binary64.number].
  rewrite FloatAxioms.eqb_spec, FloatAxioms.ltb_spec. unfold SFeqb, SFltb.
  destruct (SFcompare (Prim2SF a) (Prim2SF b)) as [[| |]|] eqn:Hc; try done.
  intros _. by rewrite (SFcompare_Eq_sym _ _ Hc).
Qed.

Lemma exact_eq_not_lt : eq_not_lt Exact.number.
Proof.
  intros a b. cbn [eqb ltb Exact.number].
  destruct a as [p| | | |], b as [q| | | |]; simpl; try done;
    intros Heq; apply ExactFacts.Qc_eqb_eq in Heq;
    apply ExactFacts.Qc_ltb_nlt; rewrite Heq; apply Qcle_refl.
Qed.

(** C10. A box with [east == west], and neither on the antimeridian: the
    outer loop stops at its first test and the empty multipolygon is
    returned, whatever north and south are (infinities and NaN included),
    on binary64 numbers and without rounding, with any fuel.  The steps are
    computed all the same: [ceil(0 / 90)] is 0 and [0 / 0] is NaN, nothing
    is raised. *)
Theorem zero_span_is_empty :
  (∀ (fuel : nat) (north east south west : float),
     PrimFloat.eqb east west = true →
     PrimFloat.eqb west (-180)%float = false →
     PrimFloat.eqb east 180%float = false →
     getBackground Binary64.number (S fuel) north east south west = Some []) ∧
  (∀ (fuel : nat) (north east south west : Exact.xnum),
     Exact.eqb east west = true →
     Exact.eqb west (Exact.lit (-180)) = false →
     Exact.eqb east (Exact.lit 180) = false →
     getBackground Exact.number (S fuel) north east south west = Some []) ∧
  (∀ a : Qc,
     ceil X (div X (sub X (Exact.Fin a) (Exact.Fin a)) (lit X 90)) = lit X 0 ∧
     initial_stepLong X (Exact.Fin a) (Exact.Fin a) = Exact.NaN ∧
     initial_stepLat X (Exact.Fin a) (Exact.Fin a) = Exact.NaN).
Proof.
  split; [|split].
  - intros fuel north east south west Heq Hw He.
    by apply getBackground_empty_span; [apply binary64_eq_not_lt|..].
  - intros fuel north east south west Heq Hw He.
    by apply getBackground_empty_span; [apply exact_eq_not_lt|..].
  - intros a.
    split; [|split;
      [apply ExactFacts.initial_stepLong_eq|apply ExactFacts.initial_stepLat_eq]].
    cbn [ceil div sub lit Exact.number]. rewrite ExactFacts.sub_Fin.
    replace (a - a)%Qc with (Q2Qc 0); [reflexivity|].
    symmetry. apply Qcplus_opp_r.
Qed.

Lemma zero_span_is_empty_witness :
  getBackground Binary64.number 1 45%float 30%float (-45)%float 30%float
  = Some [] ∧
  getBackground Exact.number 1 (Exact.lit 45) (Exact.lit 30) (Exact.lit (-45))
    (Exact.lit 30)
  = Some [].
Proof.
  split.
  - apply (proj1 zero_span_is_empty); reflexivity.
  - apply (proj1 (proj2 zero_span_is_empty)); reflexivity.
Defined.

(** * Calls on binary64 numbers *)

Section Binary64Calls.
Local Open Scope float_scope.

Lemma edge_fuel_mono {V A} (f : V → A) (fuel fuel' : nat) (c : V → bool)
  (g : V → V) (v : V) (l : list A) :
  fuel ≤ fuel' →
  fmap (M := list) f <$> trace fuel c g v = Some l →
  fmap (M := list) f <$> trace fuel' c g v = Some l.
Proof.
  intros Hle. destruct (trace fuel c g v) as [vs|] eqn:Ht; [|done].
  by rewrite (trace_fuel_mono _ _ _ _ _ _ Hle Ht).
Qed.

(** C3, refuted: the top edge of the one slice of
    [getBackground(10, 10, -10, -10)] has five points, not two. *)
Lemma small_box_top_edge_has_five_points :
  getBackground B 6 10 10 (-10) (-10) = Some [[Some small_ring]] ∧
  top_edge B 6 10 (-10) 20 = Some small_top ∧
  length small_top = 5%nat ∧
  small_top ≠ [pt (-10) 10; pt 10 10].
Proof. repeat split; try (vm_compute; reflexivity). discriminate. Qed.

(** C3, as the code has it.  [getBackground(10, 10, -10, -10)] yields exactly
    one slice, from -10, with [stepLong = 20]; the top edge of its ring is
    traced every 5 degrees, [-10, 10], [-5, 10], [0, 10], [5, 10],
    [10, 10], and is followed by the right, bottom and left edges. *)
Theorem small_box_slice (k : nat) :
  initial_stepLong B 10 (-10) = 20 ∧
  background_slices B (k + 6) 10 10 (-10) (-10) = Some [(-10, 20, small_ring)] ∧
  getBackground B (k + 6) 10 10 (-10) (-10) = Some [[Some small_ring]] ∧
  top_edge B (k + 6) 10 (-10) 20 = Some small_top ∧
  right_edge B (k + 6) 10 (-10) 20 (-10) 20 = Some small_right ∧
  bottom_edge B (k + 6) (-10) (-10) 20 = Some small_bottom ∧
  left_edge B (k + 6) 10 (-10) 20 (-10) = Some small_left.
Proof.
  assert (6 ≤ k + 6)%nat as Hle by lia.
  split; [by vm_compute|].
  split; [by apply (background_slices_fuel_mono B 6 _ _ _ _ _ _ Hle)|].
  split; [by apply (getBackground_fuel_mono B 6 _ _ _ _ _ _ Hle)|].
  repeat split; by apply (edge_fuel_mono _ 6 _ _ _ _ _ Hle).
Qed.

(** C4, refuted: the ring of [getBackground(10, 10, -10, -10)] ends on the
    point it starts with, [-10, 10], the last point of the left edge; the
    point before it on the left edge is [-10, -10]. *)
Lemma small_box_ring_repeats_start :
  getBackground B 6 10 10 (-10) (-10) = Some [[Some small_ring]] ∧
  list.head small_ring = Some (pt (-10) 10) ∧
  list.last small_ring = Some (pt (-10) 10) ∧
  left_edge B 6 10 (-10) 20 (-10) = Some [pt (-10) (-10); pt (-10) 10].
Proof. repeat split; vm_compute; reflexivity. Qed.

(** [getBackground(50, 100, -50, -100.5)]: four slices, the last one from
    the western bound that three steps reach, of the width left to 100. *)
Lemma remainder_run :
  ∃ sls mp,
    background_slices B 19 50 100 (-50) remainder_west = Some sls ∧
    getBackground B 19 50 100 (-50) remainder_west = Some mp ∧
    mp = (λ sl, [Some (slice_ring B sl)]) <$> sls ∧
    slice_west B <$> sls = remainder_bounds ∧
    slice_width B <$> sls = remainder_widths ∧
    length mp = 4%nat.
Proof.
  destruct (background_slices B 19 50 100 (-50) remainder_west) as [sls|] eqn:Hs;
    [|by vm_compute in Hs].
  destruct (getBackground B 19 50 100 (-50) remainder_west) as [mp|] eqn:Hm;
    [|by vm_compute in Hm].
  exists sls, mp. do 2 (split; [done|]).
  revert Hs Hm. vm_compute. by intros [= <-] [= <-].
Qed.

Lemma remainder_facts :
  ceil B (div B (sub B 100 remainder_west) 90) = 3 ∧
  ltb B remainder_last 100 = true ∧
  ltb B 100 (remainder_last + remainder_step) = true ∧
  clamp B 100 remainder_last remainder_step = 100 - remainder_last ∧
  ltb B (100 - remainder_last) remainder_step = true ∧
  remainder_last + (100 - remainder_last) = 100.
Proof. repeat split; vm_compute; reflexivity. Qed.

(** The box between the latitudes -89.9 and -31.8: the left edge is the one
    point at south, the right edge reaches south. *)
Lemma low_box_run :
  ∃ ring,
    getBackground B 6 low_north 10 low_south (-10) = Some [[Some ring]] ∧
    list.head ring = Some (pt (-10) low_north) ∧
    list.last ring = Some (pt (-10) low_south) ∧
    right_edge B 6 low_north low_south (initial_stepLat B low_north low_south)
      (-10) 20
    = Some [pt 10 low_north; pt 10 low_south] ∧
    left_edge B 6 low_north low_south (initial_stepLat B low_north low_south)
      (-10)
    = Some [pt (-10) low_south].
Proof.
  destruct (getBackground B 6 low_north 10 low_south (-10)) as [mp|] eqn:Hmp;
    [|by vm_compute in Hmp].
  revert Hmp. vm_compute. intros [= <-]. eexists. repeat split; reflexivity.
Qed.

(** The box between the latitudes 31.8 and 89.9: the right edge is the one
    point at north, the left edge reaches north. *)
Lemma high_box_run :
  ∃ ring,
    getBackground B 6 high_north 10 high_south (-10) = Some [[Some ring]] ∧
    list.head ring = Some (pt (-10) high_north) ∧
    list.last ring = Some (pt (-10) high_north) ∧
    right_edge B 6 high_north high_south
      (initial_stepLat B high_north high_south) (-10) 20
    = Some [pt 10 high_north] ∧
    left_edge B 6 high_north high_south
      (initial_stepLat B high_north high_south) (-10)
    = Some [pt (-10) high_south; pt (-10) high_north].
Proof.
  destruct (getBackground B 6 high_north 10 high_south (-10)) as [mp|] eqn:Hmp;
    [|by vm_compute in Hmp].
  revert Hmp. vm_compute. intros [= <-]. eexists. repeat split; reflexivity.
Qed.

Lemma low_high_facts :
  leb B low_south low_north = true ∧
  leb B (low_south + initial_stepLat B low_north low_south) low_north = false ∧
  leb B high_south high_north = true ∧
  leb B high_south (high_north - initial_stepLat B high_north high_south)
  = false.
Proof. repeat split; vm_compute; reflexivity. Qed.

End Binary64Calls.

(** * The tiler on a whole box *)

Section TilerTheorems.
Import ExactFacts.
Local Open Scope Qc_scope.
#[local] Abbreviation Fin := Exact.Fin.

(** C2. [getBackground] nudges its four bounds before anything is computed
    from them: -180 becomes -179.9999 as west, -90 becomes -89.9999 as
    south, 90 becomes 89.9999 as north and 180 becomes 179.9999 as east, and
    any other bound is kept.  On any numbers the result of a call is the
    slices of the four nudged bounds, one polygon each, so a call with a
    bound on the antimeridian or on a pole returns what the call with the
    nudged bound returns.  [getBackground(90, 180, -90, -180)], on binary64
    numbers and without rounding, returns 168 points, none at longitude 180
    or -180 or at latitude 90 or -90. *)
Theorem boundaries_nudged (N : Number) (x : num N) (k : nat) :
  (eqb N x (lit N (-180)) = true → nudge_west N x = lit N (-179.9999)) ∧
  (eqb N x (lit N (-90)) = true → nudge_south N x = lit N (-89.9999)) ∧
  (eqb N x (lit N 90) = true → nudge_north N x = lit N 89.9999) ∧
  (eqb N x (lit N 180) = true → nudge_east N x = lit N 179.9999) ∧
  (eqb N x (lit N (-180)) = false → nudge_west N x = x) ∧
  (eqb N x (lit N (-90)) = false → nudge_south N x = x) ∧
  (eqb N x (lit N 90) = false → nudge_north N x = x) ∧
  (eqb N x (lit N 180) = false → nudge_east N x = x) ∧
  (∀ (fuel : nat) (north east south west : num N),
     getBackground N fuel north east south west
     = fmap (M := list) (λ sl, [Some (slice_ring N sl)]) <$>
         slices N fuel fuel (nudge_north N north) (nudge_east N east)
           (nudge_south N south)
           (initial_stepLat N (nudge_north N north) (nudge_south N south))
           (nudge_west N west)
           (initial_stepLong N (nudge_east N east) (nudge_west N west))) ∧
  (∀ (fuel : nat) (north east south : num N),
     eqb N x (lit N (-180)) = true →
     getBackground N fuel north east south x
     = getBackground N fuel north east south (lit N (-179.9999))) ∧
  (∀ (fuel : nat) (north east west : num N),
     eqb N x (lit N (-90)) = true →
     getBackground N fuel north east x west
     = getBackground N fuel north east (lit N (-89.9999)) west) ∧
  (∀ (fuel : nat) (east south west : num N),
     eqb N x (lit N 90) = true →
     getBackground N fuel x east south west
     = getBackground N fuel (lit N 89.9999) east south west) ∧
  (∀ (fuel : nat) (north south west : num N),
     eqb N x (lit N 180) = true →
     getBackground N fuel north x south west
     = getBackground N fuel north (lit N 179.9999) south west) ∧
  (∃ mp,
     getBackground B (k + 19) 90%float 180%float (-90)%float (-180)%float
     = Some mp ∧
     length (points_of mp) = 168 ∧
     forallb (λ p, negb (at_singularity B p)) (points_of mp) = true) ∧
  (∃ mp,
     getBackground X (k + 19) (Exact.lit 90) (Exact.lit 180) (Exact.lit (-90))
       (Exact.lit (-180))
     = Some mp ∧
     length (points_of mp) = 168 ∧
     forallb (λ p, negb (at_singularity X p)) (points_of mp) = true).
Proof.
  do 8 (split; [unfold nudge_west, nudge_south, nudge_north, nudge_east;
                by intros ->|]).
  split; [apply getBackground_nudged|].
  split_and!.
  - intros fuel north east south Heq. rewrite !getBackground_nudged.
    replace (nudge_west N (lit N (-179.9999))) with (nudge_west N x); [done|].
    unfold nudge_west. rewrite Heq. by case_match.
  - intros fuel north east west Heq. rewrite !getBackground_nudged.
    replace (nudge_south N (lit N (-89.9999))) with (nudge_south N x); [done|].
    unfold nudge_south. rewrite Heq. by case_match.
  - intros fuel east south west Heq. rewrite !getBackground_nudged.
    replace (nudge_north N (lit N 89.9999)) with (nudge_north N x); [done|].
    unfold nudge_north. rewrite Heq. by case_match.
  - intros fuel north south west Heq. rewrite !getBackground_nudged.
    replace (nudge_east N (lit N 179.9999)) with (nudge_east N x); [done|].
    unfold nudge_east. rewrite Heq. by case_match.
  - destruct (getBackground B 19 90%float 180%float (-90)%float (-180)%float)
      as [mp|] eqn:Hmp; [|by vm_compute in Hmp].
    exists mp. split.
    + apply (getBackground_fuel_mono B 19); [lia|done].
    + revert Hmp. vm_compute. by intros [= <-].
  - destruct (getBackground X 19 (Exact.lit 90) (Exact.lit 180)
                (Exact.lit (-90)) (Exact.lit (-180)))
      as [mp|] eqn:Hmp; [|by vm_compute in Hmp].
    exists mp. split.
    + apply (getBackground_fuel_mono X 19); [lia|done].
    + revert Hmp. vm_compute. by intros [= <-].
Qed.

Lemma boundaries_nudged_witness :
  nudge_west B (-180)%float = lit B (-179.9999) ∧
  nudge_south B (-90)%float = lit B (-89.9999) ∧
  nudge_north B 90%float = lit B 89.9999 ∧
  nudge_east B 180%float = lit B 179.9999 ∧
  nudge_west X (Exact.lit (-180)) = lit X (-179.9999) ∧
  nudge_east X (Exact.lit 180) = lit X 179.9999.
Proof.
  split; [by apply (proj1 (boundaries_nudged B (-180)%float 0))|].
  split; [by apply (proj1 (proj2 (boundaries_nudged B (-90)%float 0)))|].
  split;
    [by apply (proj1 (proj2 (proj2 (boundaries_nudged B 90%float 0))))|].
  split;
    [by apply (proj1 (proj2 (proj2 (proj2 (boundaries_nudged B 180%float 0)))))|].
  split; [by apply (proj1 (boundaries_nudged X (Exact.lit (-180)) 0))|].
  by apply (proj1 (proj2 (proj2 (proj2 (boundaries_nudged X (Exact.lit 180) 0))))).
Defined.

(** The edges of an exact ring, with north above south. *)
Lemma exact_ring_edges (fuel : nat) (north south ln step : Qc) :
  south < north → 0 ≤ step →
  (edge_points step < fuel)%nat → (lat_points north south < fuel)%nat →
  ∃ top right bottom left : list (Point Exact.xnum),
    exact_ring north south ln step = top ++ right ++ bottom ++ left ∧
    top_edge X fuel (Fin north) (Fin ln) (Fin step)
    = Some top ∧
    right_edge X fuel (Fin north) (Fin south)
      (initial_stepLat X (Fin north) (Fin south))
      (Fin ln) (Fin step)
    = Some right ∧
    bottom_edge X fuel (Fin south) (Fin ln) (Fin step)
    = Some bottom ∧
    left_edge X fuel (Fin north) (Fin south)
      (initial_stepLat X (Fin north) (Fin south)) (Fin ln)
    = Some left ∧
    list.head top = Some (pt (Fin ln) (Fin north)) ∧
    list.head right = Some (pt (Fin (ln + step)) (Fin north)) ∧
    list.last right = Some (pt (Fin (ln + step)) (Fin south)) ∧
    list.head bottom = Some (pt (Fin (ln + step)) (Fin south)) ∧
    list.head left = Some (pt (Fin ln) (Fin south)) ∧
    list.last left = Some (pt (Fin ln) (Fin north)).
Proof.
  intros Hlt Hstep Hedge Hlat. eexists _, _, _, _.
  split; [reflexivity|].
  rewrite top_edge_exact, right_edge_exact, bottom_edge_exact, left_edge_exact
    by done.
  do 4 (split; [reflexivity|]).
  pose proof (span_step_mult north south Hlt) as Hmult.
  destruct (lat_cases north south) as [[_ Hn]|[[-> Hn]|[Hgt Hn]]].
  - rewrite Hn. rewrite !fmap_last, !progression_last. cbn.
    repeat split; do 3 f_equal; qc_lra.
  - by apply Qclt_not_eq in Hlt.
  - exfalso. apply (Qclt_not_le _ _ Hlt). by apply Qclt_le_weak.
Qed.

(** Without rounding, which is not how the program computes: for a box of
    finite bounds with north above south and east of west after the nudge,
    every slice ring is its top, right, bottom and left edge in this order;
    it starts at (slice west, north); the right edge runs from
    (slice east, north) to (slice east, south), the bottom edge starts at
    (slice east, south), and the left edge runs from (slice west, south) to
    (slice west, north).  So the last point of the ring is its first point:
    the ring is closed by repeating its start. *)
Lemma exact_ring_closes_on_its_start (north east south west : Qc) :
  let north' := nudge_north X (Fin north) in
  let east' := nudge_east X (Fin east) in
  let south' := nudge_south X (Fin south) in
  let west' := nudge_west X (Fin west) in
  ltb X south' north' = true → ltb X west' east' = true →
  ∃ (fuel0 : nat)
    (sls : list (Exact.xnum * Exact.xnum * list (Point Exact.xnum))),
    (∀ fuel : nat, (fuel0 ≤ fuel)%nat →
       background_slices X fuel (Fin north) (Fin east)
         (Fin south) (Fin west)
       = Some sls ∧
       getBackground X fuel (Fin north) (Fin east)
         (Fin south) (Fin west)
       = Some ((λ sl, polygon_of X (slice_ring X sl)) <$> sls)) ∧
    Forall
      (λ sl,
         let ln := slice_west X sl in
         let east_of := add X ln (slice_width X sl) in
         list.head (slice_ring X sl) = Some (pt ln north') ∧
         list.last (slice_ring X sl) = Some (pt ln north') ∧
         ∃ top right bottom left : list (Point Exact.xnum),
           slice_ring X sl = top ++ right ++ bottom ++ left ∧
           (∀ fuel : nat, (fuel0 ≤ fuel)%nat →
              top_edge X fuel north' ln (slice_width X sl) = Some top ∧
              right_edge X fuel north' south'
                (initial_stepLat X north' south') ln (slice_width X sl)
              = Some right ∧
              bottom_edge X fuel south' ln (slice_width X sl) = Some bottom ∧
              left_edge X fuel north' south'
                (initial_stepLat X north' south') ln
              = Some left) ∧
           list.head top = Some (pt ln north') ∧
           list.head right = Some (pt east_of north') ∧
           list.last right = Some (pt east_of south') ∧
           list.head bottom = Some (pt east_of south') ∧
           list.head left = Some (pt ln south') ∧
           list.last left = Some (pt ln north'))
      sls.
Proof.
  intros north' east' south' west' Hlat Hlong.
  destruct (exact_tiling north east south west Hlong)
    as (n & e & s & w & Hn & He & Hs & Hw & Hlt & Hrun).
  subst north' east' south' west'. rewrite Hn, Hs in *. clear Hn He Hs Hw.
  revert Hlat. exact_ops. cbn [Exact.ltb Exact.val]. intros Hlat.
  apply Qc_ltb_lt in Hlat.
  exists (enough_fuel n e s w), (exact_slices n e s w). split; [done|].
  apply Forall_lookup. intros k sl Hk.
  apply exact_slices_lookup in Hk as [_ ->].
  unfold slice_west, slice_width, slice_ring. cbn [fst snd].
  split; [apply exact_ring_head|]. split; [by apply exact_ring_last|].
  pose proof (Qclt_le_weak _ _ (span_step_pos e w Hlt)) as Hstep.
  destruct (exact_ring_edges (enough_fuel n e s w) n s
              (w + Qc_of_nat k * span_step e w) (span_step e w))
    as (top & right & bottom & left & Hring & Htop & Hright & Hbottom & Hleft
        & Hfacts); [done|done|unfold enough_fuel; lia..|].
  exists top, right, bottom, left. split; [done|]. split; [|done].
  intros fuel Hfuel.
  unfold top_edge, right_edge, bottom_edge, left_edge in *.
  repeat split;
    by eapply (edge_fuel_mono _ (enough_fuel n e s w) fuel).
Qed.

(** C4, as the code has it.  On any numbers, binary64 included, every ring
    that [getBackground] returns is its top, right, bottom and left edge in
    this order.  The top edge, and so the ring, starts at (slice west,
    north) when [ln <= ln + stepLong]; the right edge starts at (slice
    east, north) and the left edge at (slice west, south) when south is
    not above north.  The left edge climbs by [stepLat] while the latitude
    is not above north, and its last point is the last point of the ring:
    a point (slice west, lt) with [lt <= north] and not
    [lt + stepLat <= north].  It is the start of the ring when the steps
    land on north, as
    in [getBackground(10, 10, -10, -10)], where the start is repeated; it
    is a point short of north when they do not, as in
    [getBackground(-31.8, 10, -89.9, -10)], whose left edge is the point at
    south alone.  In the same way the right edge ends at (slice east, lt)
    with [lt >= south] and not [lt - stepLat >= south], which is (slice
    east, south) only when the steps land on south: in
    [getBackground(89.9, 10, 31.8, -10)] the right edge is the point at
    north alone. *)
Theorem ring_ends_with_its_left_edge :
  (∀ (N : Number) (fuel : nat) (north east south west : num N)
     (mp : list (Polygon (num N))),
     getBackground N fuel north east south west = Some mp →
     let north' := nudge_north N north in
     let south' := nudge_south N south in
     let stepLat := initial_stepLat N north' south' in
     ∃ sls : list (num N * num N * list (Point (num N))),
       mp = (λ sl, [Some (slice_ring N sl)]) <$> sls ∧
       Forall
         (λ sl,
            let ln := slice_west N sl in
            let east_of := add N ln (slice_width N sl) in
            ∃ top right bottom left : list (Point (num N)),
              slice_ring N sl = top ++ right ++ bottom ++ left ∧
              top_edge N fuel north' ln (slice_width N sl) = Some top ∧
              right_edge N fuel north' south' stepLat ln (slice_width N sl)
              = Some right ∧
              bottom_edge N fuel south' ln (slice_width N sl) = Some bottom ∧
              left_edge N fuel north' south' stepLat ln = Some left ∧
              list.head top
              = (if leb N ln east_of then Some (pt ln north') else None) ∧
              list.head right
              = (if leb N south' north'
                 then Some (pt east_of north') else None) ∧
              list.head bottom
              = (if leb N ln east_of then Some (pt east_of south') else None) ∧
              list.head left
              = (if leb N south' north' then Some (pt ln south') else None) ∧
              (∀ p, list.last right = Some p →
                 ∃ lt, p = pt east_of lt ∧ leb N south' lt = true ∧
                       leb N south' (sub N lt stepLat) = false) ∧
              (∀ p, list.last left = Some p →
                 ∃ lt, p = pt ln lt ∧ leb N lt north' = true ∧
                       leb N (add N lt stepLat) north' = false) ∧
              (leb N ln east_of = true →
               list.head (slice_ring N sl) = Some (pt ln north')) ∧
              (∀ p, list.last left = Some p →
                 list.last (slice_ring N sl) = Some p))
         sls) ∧
  (∀ k : nat,
     getBackground B (k + 6) 10%float 10%float (-10)%float (-10)%float
     = Some [[Some small_ring]] ∧
     list.head small_ring = Some (pt (-10)%float 10%float) ∧
     list.last small_ring = Some (pt (-10)%float 10%float) ∧
     left_edge B (k + 6) 10%float (-10)%float 20%float (-10)%float
     = Some [pt (-10)%float (-10)%float; pt (-10)%float 10%float]) ∧
  (∀ k : nat,
     ∃ ring,
       getBackground B (k + 6) low_north 10%float low_south (-10)%float
       = Some [[Some ring]] ∧
       list.head ring = Some (pt (-10)%float low_north) ∧
       list.last ring = Some (pt (-10)%float low_south) ∧
       left_edge B (k + 6) low_north low_south
         (initial_stepLat B low_north low_south) (-10)%float
       = Some [pt (-10)%float low_south] ∧
       leb B low_south low_north = true ∧
       leb B (add B low_south (initial_stepLat B low_north low_south))
         low_north
       = false) ∧
  (∀ k : nat,
     ∃ ring,
       getBackground B (k + 6) high_north 10%float high_south (-10)%float
       = Some [[Some ring]] ∧
       list.head ring = Some (pt (-10)%float high_north) ∧
       list.last ring = Some (pt (-10)%float high_north) ∧
       right_edge B (k + 6) high_north high_south
         (initial_stepLat B high_north high_south) (-10)%float 20%float
       = Some [pt 10%float high_north] ∧
       leb B high_south high_north = true ∧
       leb B high_south
         (sub B high_north (initial_stepLat B high_north high_south))
       = false).
Proof.
  split_and!.
  - intros N fuel north east south west mp Hmp north' south' stepLat.
    apply getBackground_inv in Hmp as (sls & Hsls & ->).
    exists sls. split; [done|].
    apply slices_shape in Hsls as (_ & _ & _ & Hall & _).
    eapply Forall_impl; [|exact Hall]. intros sl [_ Hring]. cbv zeta.
    apply ring_of_edges in Hring
      as (top & right & bottom & left & Hparts & Htop & Hright & Hbottom
          & Hleft & Hht & Hhr & Hhb & Hhl & Hlr & Hll).
    exists top, right, bottom, left.
    do 11 (split; [done|]). rewrite Hparts. split.
    + intros Hle. by rewrite head_app, Hht, Hle.
    + intros p Hp. by rewrite !app_assoc, last_app, Hp.
  - intros k. assert (6 ≤ k + 6)%nat as Hle by lia.
    split; [by apply (getBackground_fuel_mono B 6 _ _ _ _ _ _ Hle)|].
    do 2 (split; [reflexivity|]).
    by apply (edge_fuel_mono _ 6 _ _ _ _ _ Hle).
  - intros k. assert (6 ≤ k + 6)%nat as Hle by lia.
    destruct low_box_run as (ring & Hmp & Hhead & Hlast & _ & Hleft).
    destruct low_high_facts as (Hl1 & Hl2 & _).
    exists ring.
    split; [exact (getBackground_fuel_mono B 6 _ _ _ _ _ _ Hle Hmp)|].
    split; [exact Hhead|]. split; [exact Hlast|].
    split; [|exact (conj Hl1 Hl2)].
    unfold left_edge in *. exact (edge_fuel_mono _ 6 _ _ _ _ _ Hle Hleft).
  - intros k. assert (6 ≤ k + 6)%nat as Hle by lia.
    destruct high_box_run as (ring & Hmp & Hhead & Hlast & Hright & _).
    destruct low_high_facts as (_ & _ & Hh1 & Hh2).
    exists ring.
    split; [exact (getBackground_fuel_mono B 6 _ _ _ _ _ _ Hle Hmp)|].
    split; [exact Hhead|]. split; [exact Hlast|].
    split; [|exact (conj Hh1 Hh2)].
    unfold right_edge in *. exact (edge_fuel_mono _ 6 _ _ _ _ _ Hle Hright).
Qed.

(** C1, refuted: on binary64 numbers [getBackground(50, 100, -50, -100.5)]
    returns four polygons where [ceil((100 - (-100.5)) / 90)] is 3, and its
    slices are not of one width: three steps of [stepLong] from west reach
    a longitude still below 100, from where a fourth slice of the width
    that is left, less than [stepLong], is cut. *)
Lemma binary64_four_slices_for_three_sections :
  ceil B (div B (sub B 100%float remainder_west) 90%float) = 3%float ∧
  (length <$> getBackground B 19 50%float 100%float (-50)%float remainder_west
   = Some 4%nat) ∧
  (fmap (M := list) (slice_west B) <$>
     background_slices B 19 50%float 100%float (-50)%float remainder_west
   = Some remainder_bounds) ∧
  (fmap (M := list) (slice_width B) <$>
     background_slices B 19 50%float 100%float (-50)%float remainder_west
   = Some remainder_widths) ∧
  ltb B remainder_last 100%float = true ∧
  ltb B (sub B 100%float remainder_last) remainder_step = true.
Proof. repeat split; vm_compute; reflexivity. Qed.

(** C1, as the code has it.  [getBackground(80, 170, -80, -170)] returns
    exactly [ceil((170 - (-170)) / 90) = 4] polygons, and [stepLong] starts
    as [min(90, (east - west) / ceil((east - west) / 90))].  On any numbers,
    binary64 included, the outer loop cuts the slices from west while the
    western bound [ln] is below east: the first slice starts at west, each
    next one at [ln + stepLong] of the one before, and the width of a slice
    is [stepLong] as the slice before left it, clamped to [east - ln] when
    [ln + stepLong] is above east; the last slice ends at a longitude that
    is not below east.  The number of slices is not always
    [ceil((east - west) / 90)]: on binary64 numbers
    [getBackground(50, 100, -50, -100.5)] returns four polygons for three
    sections, three of them of width [stepLong] and a fourth, clamped, of
    the width left to 100.  Computed without rounding, a box of finite
    bounds east of west after the nudge is cut in exactly
    [ceil((east - west) / 90)] slices of one width, none clamped. *)
Theorem slices_cover_span :
  (∀ k : nat,
     length <$> getBackground B (k + 19) 80%float 170%float (-80)%float
                  (-170)%float
     = Some 4%nat) ∧
  (∀ k : nat,
     length <$> getBackground X (k + 19) (Exact.lit 80) (Exact.lit 170)
                  (Exact.lit (-80)) (Exact.lit (-170))
     = Some 4%nat) ∧
  (∀ (N : Number) (east west : num N),
     initial_stepLong N east west
     = min N (lit N 90)
         (div N (sub N east west) (ceil N (div N (sub N east west) (lit N 90))))) ∧
  (∀ (N : Number) (east ln step : num N),
     clamp N east ln step
     = if ltb N east (add N ln step) then sub N east ln else step) ∧
  (∀ (N : Number) (fuel : nat) (north east south west : num N)
     (mp : list (Polygon (num N))),
     getBackground N fuel north east south west = Some mp →
     let north' := nudge_north N north in
     let east' := nudge_east N east in
     let south' := nudge_south N south in
     let west' := nudge_west N west in
     ∃ sls : list (num N * num N * list (Point (num N))),
       mp = (λ sl, [Some (slice_ring N sl)]) <$> sls ∧
       (sls = [] ↔ ltb N west' east' = false) ∧
       (∀ sl, sls !! 0%nat = Some sl →
          slice_west N sl = west' ∧
          slice_width N sl
          = clamp N east' west' (initial_stepLong N east' west')) ∧
       (∀ (i : nat) sl sl', sls !! i = Some sl → sls !! S i = Some sl' →
          slice_west N sl' = add N (slice_west N sl) (slice_width N sl) ∧
          slice_width N sl'
          = clamp N east' (slice_west N sl') (slice_width N sl)) ∧
       Forall
         (λ sl,
            ltb N (slice_west N sl) east' = true ∧
            ring_of N fuel north' south' (initial_stepLat N north' south')
              (slice_west N sl) (slice_width N sl)
            = Some (slice_ring N sl))
         sls ∧
       (∀ sl, list.last sls = Some sl →
          ltb N (add N (slice_west N sl) (slice_width N sl)) east' = false)) ∧
  (∀ k : nat,
     ∃ sls : list (float * float * list (Point float)),
       background_slices B (k + 19) 50%float 100%float (-50)%float
         remainder_west
       = Some sls ∧
       getBackground B (k + 19) 50%float 100%float (-50)%float remainder_west
       = Some ((λ sl, [Some (slice_ring B sl)]) <$> sls) ∧
       slice_west B <$> sls = remainder_bounds ∧
       slice_width B <$> sls = remainder_widths ∧
       length sls = 4%nat ∧
       ceil B (div B (sub B 100%float remainder_west) 90%float) = 3%float ∧
       ltb B remainder_last 100%float = true ∧
       ltb B 100%float (add B remainder_last remainder_step) = true ∧
       clamp B 100%float remainder_last remainder_step
       = sub B 100%float remainder_last ∧
       ltb B (sub B 100%float remainder_last) remainder_step = true) ∧
  (∀ north east south west : Qc,
     let east' := nudge_east X (Fin east) in
     let west' := nudge_west X (Fin west) in
     ltb X west' east' = true →
     ∃ (fuel0 : nat)
       (sls : list (Exact.xnum * Exact.xnum * list (Point Exact.xnum))),
       (∀ fuel : nat, (fuel0 ≤ fuel)%nat →
          background_slices X fuel (Fin north) (Fin east)
            (Fin south) (Fin west)
          = Some sls ∧
          getBackground X fuel (Fin north) (Fin east)
            (Fin south) (Fin west)
          = Some ((λ sl, polygon_of X (slice_ring X sl)) <$> sls)) ∧
       ceil X (div X (sub X east' west') (lit X 90))
       = Fin (Qc_of_nat (length sls)) ∧
       Forall (λ sl, slice_width X sl = initial_stepLong X east' west') sls ∧
       (∀ sl, sls !! 0%nat = Some sl → slice_west X sl = west') ∧
       (∀ (i : nat) sl sl', sls !! i = Some sl → sls !! S i = Some sl' →
          slice_west X sl' = add X (slice_west X sl) (slice_width X sl)) ∧
       (∀ sl, list.last sls = Some sl →
          add X (slice_west X sl) (slice_width X sl) = east')).
Proof.
  split_and!.
  - intros k.
    destruct (getBackground B 19 80%float 170%float (-80)%float (-170)%float)
      as [mp|] eqn:Hmp; [|by vm_compute in Hmp].
    rewrite (getBackground_fuel_mono B 19 (k + 19) _ _ _ _ mp) by (lia || done).
    revert Hmp. vm_compute. by intros [= <-].
  - intros k.
    destruct (getBackground X 19 (Exact.lit 80) (Exact.lit 170)
                (Exact.lit (-80)) (Exact.lit (-170)))
      as [mp|] eqn:Hmp; [|by vm_compute in Hmp].
    rewrite (getBackground_fuel_mono X 19 (k + 19) _ _ _ _ mp) by (lia || done).
    revert Hmp. vm_compute. by intros [= <-].
  - done.
  - done.
  - intros N fuel north east south west mp Hmp north' east' south' west'.
    apply getBackground_inv in Hmp as (sls & Hsls & ->).
    exists sls. split; [done|]. by apply slices_shape in Hsls.
  - intros k. assert (19 ≤ k + 19)%nat as Hle by lia.
    destruct remainder_run as (sls & mp & Hs & Hm & -> & Hw & Hwd & Hlen).
    destruct remainder_facts as (Hceil & Hlt & Hover & Hclamp & Hless & _).
    exists sls.
    split; [exact (background_slices_fuel_mono B 19 _ _ _ _ _ _ Hle Hs)|].
    split; [exact (getBackground_fuel_mono B 19 _ _ _ _ _ _ Hle Hm)|].
    rewrite length_fmap in Hlen.
    exact (conj Hw (conj Hwd (conj Hlen (conj Hceil (conj Hlt
             (conj Hover (conj Hclamp Hless))))))).
  - intros north east south west east' west' Hlong.
    destruct (exact_tiling north east south west Hlong)
      as (n & e & s & w & Hn & He & Hs & Hw & Hlt & Hrun).
    subst east' west'. rewrite He, Hw.
    exists (enough_fuel n e s w), (exact_slices n e s w).
    split; [done|]. split.
    { exact_ops. rewrite ceil_span by done. by rewrite exact_slices_length. }
    rewrite initial_stepLong_span by done.
    split; [apply exact_slices_widths|].
    split; [apply exact_slices_first|].
    split; [apply exact_slices_next|].
    intros sl. by apply exact_slices_last.
Qed.

Lemma slices_cover_span_witness :
  getBackground B 6 10%float 10%float (-10)%float (-10)%float
  = Some [[Some small_ring]] ∧
  ∃ sls : list (float * float * list (Point float)),
    [[Some small_ring]] = (λ sl, [Some (slice_ring B sl)]) <$> sls ∧
    (∀ sl, sls !! 0%nat = Some sl →
       slice_west B sl = nudge_west B (-10)%float ∧
       slice_width B sl
       = clamp B (nudge_east B 10%float) (nudge_west B (-10)%float)
           (initial_stepLong B (nudge_east B 10%float)
              (nudge_west B (-10)%float))).
Proof.
  assert (getBackground B 6 10%float 10%float (-10)%float (-10)%float
          = Some [[Some small_ring]]) as Hmp by by vm_compute.
  split; [exact Hmp|].
  destruct (proj1 (proj2 (proj2 (proj2 (proj2 slices_cover_span)))) B 6
              10%float 10%float (-10)%float (-10)%float _ Hmp)
    as (sls & Heq & _ & Hfirst & _).
  exists sls. split; [exact Heq|exact Hfirst].
Defined.

(** On binary64 numbers the western bounds can fall short of east by a
    remainder of rounding, which the clamp makes one more, final slice.  In
    [getBackground(10, 114, -10, -54.7)], [ceil((114 - (-54.7)) / 90)] is 2
    and two steps of [stepLong] from west reach a longitude [ln] still west
    of 114; [ln + stepLong] is east of 114, so the third slice is clamped to
    the width [114 - ln], and its ring runs from [ln] to 114 and back.
    Computed without rounding the call returns two polygons. *)
Remark binary64_remainder_slice :
  let west := Binary64.lit (-54.7) in
  let step := initial_stepLong B 114%float west in
  let ln := add B (add B west step) step in
  ceil B (div B (sub B 114%float west) 90%float) = 2%float ∧
  ltb B ln 114%float = true ∧
  ltb B 114%float (add B ln step) = true ∧
  add B ln (sub B 114%float ln) = 114%float ∧
  (∃ r0 r1 : list (Point float),
     background_slices B 19 10%float 114%float (-10)%float west
     = Some [(west, step, r0); (add B west step, step, r1);
             (ln, sub B 114%float ln,
              [pt ln 10%float; pt 114%float 10%float;
               pt 114%float (-10)%float; pt 114%float (-10)%float;
               pt ln (-10)%float; pt ln 10%float])] ∧
     getBackground B 19 10%float 114%float (-10)%float west
     = Some [[Some r0]; [Some r1];
             [Some [pt ln 10%float; pt 114%float 10%float;
                    pt 114%float (-10)%float; pt 114%float (-10)%float;
                    pt ln (-10)%float; pt ln 10%float]]]) ∧
  (length <$> getBackground X 19 (Exact.lit 10) (Exact.lit 114)
                (Exact.lit (-10)) (Exact.lit (-54.7))
   = Some 2%nat).
Proof.
  cbv zeta. do 4 (split; [vm_compute; reflexivity|]).
  split; [|vm_compute; reflexivity].
  destruct (background_slices B 19 10%float 114%float (-10)%float
              (Binary64.lit (-54.7))) as [sls|] eqn:Hs;
    [|by vm_compute in Hs].
  destruct (getBackground B 19 10%float 114%float (-10)%float
              (Binary64.lit (-54.7))) as [mp|] eqn:Hm;
    [|by vm_compute in Hm].
  revert Hs Hm. vm_compute. intros [= <-] [= <-].
  eexists _, _. split; reflexivity.
Qed.



Lemma ring_ends_with_its_left_edge_witness :
  getBackground B 6 10%float 10%float (-10)%float (-10)%float
  = Some [[Some small_ring]] ∧
  ∃ sls : list (float * float * list (Point float)),
    [[Some small_ring]] = (λ sl, [Some (slice_ring B sl)]) <$> sls ∧
    Forall
      (λ sl,
         ∀ p, list.last (slice_ring B sl) = Some p →
              ∃ lt, p = pt (slice_west B sl) lt ∧
                    leb B lt (nudge_north B 10%float) = true)
      sls.
Proof.
  assert (getBackground B 6 10%float 10%float (-10)%float (-10)%float
          = Some [[Some small_ring]]) as Hmp by by vm_compute.
  split; [exact Hmp|].
  destruct (proj1 ring_ends_with_its_left_edge B 6 10%float 10%float
              (-10)%float (-10)%float _ Hmp)
    as (sls & Heq & Hrings).
  exists sls. split; [exact Heq|].
  apply Forall_lookup. intros i sl Hi.
  destruct (Forall_lookup_1 _ _ i sl Hrings Hi)
    as (top & right & bottom & left & Hparts & _ & _ & _ & Hleft & _ & _ & _
        & Hhl & _ & Hll & _ & Hlast).
  intros p Hp.
  assert (leb B (nudge_south B (-10)%float) (nudge_north B 10%float) = true)
    as Hlat by reflexivity.
  rewrite Hlat in Hhl.
  destruct (list.last left) as [q|] eqn:Hq.
  - rewrite (Hlast q eq_refl) in Hp. injection Hp as <-.
    destruct (Hll q eq_refl) as (lt & -> & Hle & _).
    exists lt. split; [reflexivity|exact Hle].
  - apply last_None in Hq. rewrite Hq in Hhl. discriminate Hhl.
Defined.

End TilerTheorems.
